(** * Forest fire cellular automaton (main.py): the simulation core

    A shallow embedding of [TileState], [Forest] and [Simulation] of main.py,
    and the properties of seeding, ignition, coordinate access and the
    per-step transition rule.

    The numpy object array [Forest.grid] of shape [(size, size)] is a list of
    rows.  Python exceptions are the [Raise] results of an error monad; the
    two calls to [np.random] are oracles, fixed in a section together with the
    only facts numpy promises about them, and whether numpy can allocate an
    array of a given size is the answer of the platform, an argument of the
    constructor. *)

From Stdlib Require Import ZArith Lia.
From stdpp Require Import base numbers list strings.

Local Open Scope Z_scope.

(** ** Python values and exceptions *)

(** [class TileState(Enum)] *)
Inductive TileState : Set := EMPTY | TREE | FIRE | ASHES.

Global Instance TileState_eq_dec : EqDecision TileState.
Proof. solve_decision. Defined.

(** The exceptions the modelled statements can raise: numpy's [ValueError]
    ("negative dimensions are not allowed", and the refusal of an array too
    big for the platform), the [MemoryError] of an allocation that fails,
    Python's [ZeroDivisionError] of [%] and the [IndexError] of an index out
    of bounds. *)
Inductive exn : Set := ValueError | MemoryError | ZeroDivisionError | IndexError.

Inductive result (A : Type) : Type :=
  | Ok (a : A)
  | Raise (e : exn).
Global Arguments Ok {A} a.
Global Arguments Raise {A} e.

Global Instance result_ret : MRet result := λ A, Ok.
Global Instance result_bind : MBind result := λ A B f m,
  match m with
  | Ok a => f a
  | Raise e => Raise e
  end.

Definition raises {A} (m : result A) : bool :=
  match m with
  | Ok _ => false
  | Raise _ => true
  end.

(** [for x in l: b = body(b, x)] with exceptions propagated. *)
Fixpoint for_each {A B} (body : B → A → result B) (l : list A) (b : B) : result B :=
  match l with
  | [] => Ok b
  | x :: l' => b' ← body b x; for_each body l' b'
  end.

(** [range(n)] *)
Definition py_range (n : Z) : list Z := seqZ 0 n.

(** [a % n] on Python ints: the sign of the result follows the divisor, as
    [Z.modulo] does; a zero divisor raises. *)
Definition py_mod (a n : Z) : result Z :=
  if decide (n = 0) then Raise ZeroDivisionError else Ok (a `mod` n).

(** ** numpy arrays of shape (rows, cols) *)

Abbreviation Grid := (list (list TileState)).
Abbreviation Mask := (list (list bool)).

(** What numpy answers when asked for an array of [size] x [size] objects,
    [size] > 0.  The platform decides: [TooBig] is the ValueError for a
    dimension or a number of bytes beyond its index type ("Maximum allowed
    dimension exceeded", "array is too big"), [NoMemory] the MemoryError of
    an allocation that the machine cannot serve. *)
Inductive allocation : Set := Allocated | TooBig | NoMemory.

(** [np.full((size, size), fill, dtype=object)] on a platform that answers
    [alloc].  A negative dimension is refused first; an array with no element
    is never too big and takes no memory for its elements. *)
Definition np_full (alloc : Z → allocation) (size : Z) (fill : TileState) :
    result Grid :=
  if decide (size < 0) then Raise ValueError
  else if decide (size = 0) then Ok []
  else match alloc size with
       | Allocated =>
           Ok (replicate (Z.to_nat size) (replicate (Z.to_nat size) fill))
       | TooBig => Raise ValueError
       | NoMemory => Raise MemoryError
       end.

(** A platform for the examples: a 64-bit numpy, where a side of 2^30 or more
    makes the size * size * 8 bytes of the array overflow the index type, on
    a machine without the 8 GiB that 2^15 x 2^15 objects take. *)
Definition alloc_example (size : Z) : allocation :=
  if decide (2 ^ 30 ≤ size) then TooBig
  else if decide (2 ^ 15 ≤ size) then NoMemory
  else Allocated.

(** One index of an axis of length [len]: a negative index counts from the end. *)
Definition np_index (len : nat) (i : Z) : result nat :=
  if decide (0 ≤ i < Z.of_nat len) then Ok (Z.to_nat i)
  else if decide (- Z.of_nat len ≤ i < 0) then Ok (Z.to_nat (i + Z.of_nat len))
  else Raise IndexError.

(** [g[row][col]] *)
Definition np_getitem (g : Grid) (row col : Z) : result TileState :=
  i ← np_index (length g) row;
  match g !! i with
  | Some r =>
      j ← np_index (length r) col;
      match r !! j with
      | Some s => Ok s
      | None => Raise IndexError
      end
  | None => Raise IndexError
  end.

(** [g[row][col] = s] *)
Definition np_setitem (g : Grid) (row col : Z) (s : TileState) : result Grid :=
  i ← np_index (length g) row;
  match g !! i with
  | Some r =>
      j ← np_index (length r) col;
      Ok (<[i := <[j := s]> r]> g)
  | None => Raise IndexError
  end.

(** [g == s], elementwise *)
Definition np_eq (g : Grid) (s : TileState) : Mask :=
  (λ r : list TileState, (λ x, bool_decide (x = s)) <$> r) <$> g.

(** [np.count_nonzero(m)] *)
Definition np_count_nonzero (m : Mask) : nat :=
  length (filter (λ b, b = true) (concat m)).

(** [np.any(m)] *)
Definition np_any (m : Mask) : bool :=
  existsb (existsb id) m.

(** The pairs that [zip] makes of the two index arrays of [np.where(m)]: the
    positions of the true entries, row-major. *)
Fixpoint where_row (row col : Z) (bs : list bool) : list (Z * Z) :=
  match bs with
  | [] => []
  | b :: bs' => (if b then [(row, col)] else []) ++ where_row row (col + 1) bs'
  end.

Fixpoint where_rows (row : Z) (m : Mask) : list (Z * Z) :=
  match m with
  | [] => []
  | bs :: m' => where_row row 0 bs ++ where_rows (row + 1) m'
  end.

Definition np_where (m : Mask) : list (Z * Z) := where_rows 0 m.

(** ** class Forest *)

Record Forest : Type := mkForest { size : Z; grid : Grid }.

(** [Forest.__init__], on a platform that answers [alloc]. *)
Definition Forest_init (alloc : Z → allocation) (size : Z) : result Forest :=
  g ← np_full alloc size EMPTY;
  Ok (mkForest size g).

(** [[(i, j) for i in range(size) for j in range(size)]] *)
Definition available_positions (size : Z) : list (Z * Z) :=
  i ← py_range size; j ← py_range size; [(i, j)].

(** The loop of [plant_trees]: [i] is the counter of [enumerate]. *)
Fixpoint plant_loop (num_trees : Z) (i : Z) (ps : list (Z * Z)) (g : Grid) : result Grid :=
  match ps with
  | [] => Ok g
  | (row, col) :: ps' =>
      if decide (i >= num_trees) then Ok g
      else g' ← np_setitem g row col TREE; plant_loop num_trees (i + 1) ps' g'
  end.

(** [Forest.get_state] *)
Definition get_state (f : Forest) (row col : Z) : result TileState :=
  i ← py_mod row (size f);
  j ← py_mod col (size f);
  np_getitem (grid f) i j.

(** [Forest.set_state] *)
Definition set_state (f : Forest) (row col : Z) (state : TileState) : result Forest :=
  i ← py_mod row (size f);
  j ← py_mod col (size f);
  g ← np_setitem (grid f) i j state;
  Ok (mkForest (size f) g).

Section Randomness.

(** [np.random.shuffle] returns some permutation of its argument and
    [np.random.choice(n)] some index below [n]. *)
Variable shuffle : list (Z * Z) → list (Z * Z).
Variable choice : nat → nat.

(** [Forest.plant_trees] *)
Definition plant_trees (num_trees : Z) (f : Forest) : result Forest :=
  g ← plant_loop num_trees 0 (shuffle (available_positions (size f))) (grid f);
  Ok (mkForest (size f) g).

(** The positions [plant_trees num_trees] plants on a grid of size [N]. *)
Definition planted (N num_trees : Z) : list (Z * Z) :=
  take (Z.to_nat (Z.min num_trees (N * N))) (shuffle (available_positions N)).

(** [Forest.ignite_tree] *)
Definition ignite_tree (f : Forest) : result Forest :=
  let tree_positions := np_where (np_eq (grid f) TREE) in
  match tree_positions with
  | [] => Ok f
  | _ :: _ =>
      match tree_positions !! choice (length tree_positions) with
      | Some (row, col) =>
          g ← np_setitem (grid f) row col FIRE;
          Ok (mkForest (size f) g)
      | None => Raise IndexError
      end
  end.

End Randomness.

(** ** class Simulation *)

Record Simulation : Type := mkSimulation { forest : Forest; time_step : Z }.

(** What one call of [next_step] hands to [update_chart]. *)
Record ChartPoint : Type :=
  mkChartPoint { cp_time_step : Z; cp_total_trees : nat; cp_total_ashes : nat }.

Definition neighbors : list (Z * Z) := [(-1, 0); (1, 0); (0, -1); (0, 1)].

(** The body of [for dr, dc in neighbors] for the burning cell [(row, col)]. *)
Definition spread (f : Forest) (row col : Z) (new_grid : Grid) (d : Z * Z) : result Grid :=
  let '(dr, dc) := d in
  let nr := row + dr in
  let nc := col + dc in
  if decide ((0 ≤ nr < size f) ∧ (0 ≤ nc < size f)) then
    neighbor_state ← get_state f nr nc;
    if decide (neighbor_state = TREE) then np_setitem new_grid nr nc FIRE
    else Ok new_grid
  else Ok new_grid.

(** The body of [for col in range(size)]. *)
Definition visit (f : Forest) (row : Z) (new_grid : Grid) (col : Z) : result Grid :=
  current_state ← get_state f row col;
  if decide (current_state = FIRE) then
    g ← np_setitem new_grid row col ASHES;
    for_each (spread f row col) neighbors g
  else Ok new_grid.

(** [Simulation.next_step]; the call of [update_chart] is the returned point. *)
Definition next_step (s : Simulation) : result (Simulation * ChartPoint) :=
  let f := forest s in
  let new_grid := grid f in
  let size := size f in
  new_grid ← for_each (λ g row, for_each (visit f row) (py_range size) g)
                      (py_range size) new_grid;
  let f' := mkForest size new_grid in
  let t := time_step s + 1 in
  let total_trees := np_count_nonzero (np_eq (grid f') TREE) in
  let total_ashes := np_count_nonzero (np_eq (grid f') ASHES) in
  Ok (mkSimulation f' t, mkChartPoint t total_trees total_ashes).

(** [Simulation.has_fire] *)
Definition has_fire (s : Simulation) : bool :=
  np_any (np_eq (grid (forest s)) FIRE).

(** [n] calls of [next_step] in a row, nothing else in between. *)
Fixpoint steps (n : nat) (s : Simulation) : result Simulation :=
  match n with
  | O => Ok s
  | S n' => '(s', _) ← next_step s; steps n' s'
  end.

(** ** Vocabulary of the statements *)

(** The state at [(row, col)], for coordinates inside the grid only. *)
Definition cell (g : Grid) (row col : Z) : option TileState :=
  if decide (0 ≤ row ∧ 0 ≤ col) then
    r ← g !! Z.to_nat row; r !! Z.to_nat col
  else None.

(** [g] has [n] rows of [n] cells. *)
Definition shape (n : nat) (g : Grid) : Prop :=
  length g = n ∧ Forall (λ r, length r = n) g.

(** A forest as the constructor builds it and every method keeps it. *)
Definition wf (f : Forest) : Prop :=
  0 ≤ size f ∧ shape (Z.to_nat (size f)) (grid f).

Definition count (s : TileState) (g : Grid) : nat :=
  np_count_nonzero (np_eq g s).

(** The rule that [next_step] applies to every cell (lemma
    [next_step_transition]): neighbors outside the grid do not exist. *)

(** One of the four cells next to [(row, col)] is inside the grid and burns. *)
Definition burning (g : Grid) (row col : Z) : bool :=
  existsb (λ d, bool_decide (cell g (row + d.1) (col + d.2) = Some FIRE)) neighbors.

Definition transition (g : Grid) (row col : Z) : option TileState :=
  match cell g row col with
  | Some FIRE => Some ASHES
  | Some TREE => Some (if burning g row col then FIRE else TREE)
  | o => o
  end.

(** Visiting [(row, col)] writes the cell [(i, j)]. *)
Definition affects (g : Grid) (row col i j : Z) : Prop :=
  cell g row col = Some FIRE ∧
  ((i = row ∧ j = col) ∨
   (cell g i j = Some TREE ∧ (i - row, j - col) ∈ neighbors)).

Global Instance affects_dec g row col i j : Decision (affects g row col i j).
Proof. unfold affects. apply _. Defined.

(** The invariant of the loops of [next_step]: [old] is the grid before the
    step, [P] holds of the positions visited so far. *)
Definition step_inv (n : nat) (old : Grid) (P : Z → Z → Prop) (g : Grid) : Prop :=
  shape n g ∧
  ∀ i j,
    (cell g i j = cell old i j ∨ cell g i j = transition old i j) ∧
    (∀ r c, P r c → affects old r c i j → cell g i j = transition old i j).

(** Weights of cells, for counting by state. *)
Definition indicator (s x : TileState) : nat := if decide (x = s) then 1%nat else 0%nat.

(** The sum of a weight over all cells. *)
Definition total (w : TileState → nat) (g : Grid) : nat :=
  sum_list_with (sum_list_with w) g.

(** Two 3x3 forests: a fire in the center, a fire in the corner (0,0). *)
Definition grid_center_fire : Grid :=
  [[TREE; TREE; TREE]; [TREE; FIRE; TREE]; [TREE; TREE; TREE]].

Definition grid_corner_fire : Grid :=
  [[FIRE; TREE; TREE]; [TREE; TREE; TREE]; [TREE; TREE; TREE]].

(** A forest that has burnt out, with trees the fire did not reach. *)
Definition grid_burnt_out : Grid :=
  [[ASHES; TREE; EMPTY]; [ASHES; ASHES; EMPTY]; [TREE; EMPTY; EMPTY]].

(** [Simulation.__init__] *)
Definition Simulation_init (f : Forest) : Simulation := mkSimulation f 0.

(** [q] is one move up, down, left or right of [p]. *)
Definition adjacent (p q : Z * Z) : Prop := (q.1 - p.1, q.2 - p.2) ∈ neighbors.

(** Consecutive positions of the list are adjacent. *)
Fixpoint chain (l : list (Z * Z)) : Prop :=
  match l with
  | p :: l' => match l' with q :: _ => adjacent p q | [] => True end ∧ chain l'
  | [] => True
  end.

(** The state of the cell [p] after [k] steps from [s]. *)
Definition state_at (s : Simulation) (k : nat) (p : Z * Z) : option TileState :=
  match steps k s with
  | Ok s' => cell (grid (forest s')) p.1 p.2
  | Raise _ => None
  end.

(** ** The chart *)

(** What [update_chart] touches of the Chart.js object: the labels, the data
    of the two datasets, and the calls of [chart.update()]. *)
Record Chart : Type := mkChart {
  labels : list Z;
  trees_left : list nat;
  trees_burned : list nat;
  redraws : nat
}.

(** [update_chart], on the global [chart], which is [None] until a chart is
    created. *)
Definition update_chart (chart : option Chart) (p : ChartPoint) : option Chart :=
  match chart with
  | Some c =>
      Some (mkChart (labels c ++ [cp_time_step p])
                    (trees_left c ++ [cp_total_trees p])
                    (trees_burned c ++ [cp_total_ashes p])
                    (S (redraws c)))
  | None => None
  end.

(** [Simulation.next_step] together with its effect on the global [chart]. *)
Definition next_step_chart (sc : Simulation * option Chart) :
    result (Simulation * option Chart) :=
  '(s', p) ← next_step sc.1;
  Ok (s', update_chart sc.2 p).

Fixpoint steps_chart (n : nat) (sc : Simulation * option Chart) :
    result (Simulation * option Chart) :=
  match n with
  | O => Ok sc
  | S n' => sc' ← next_step_chart sc; steps_chart n' sc'
  end.

(** The chart points of the first [k] steps from [s]. *)
Fixpoint history (k : nat) (s : Simulation) : list ChartPoint :=
  match k with
  | O => []
  | S k' =>
      match next_step s with
      | Ok (s', p) => p :: history k' s'
      | Raise _ => []
      end
  end.

(** ** class Visualization *)

(** The color strings of [draw_grid]. *)
Definition color_of (state : TileState) : string :=
  if decide (state = EMPTY) then "black"
  else if decide (state = TREE) then "green"
  else if decide (state = FIRE) then "red"
  else if decide (state = ASHES) then "grey"
  else "black".

Section Canvas.

(** The numbers of the canvas are JavaScript's: their type, the width of the
    canvas, the division [x / n] by a non-zero int and the product [n * x]
    are left open. *)
Variable number : Type.
Variable width : number.
Variable truediv : number → Z → number.
Variable times : Z → number → number.

(** One [fillRect(x, y, w, h)] under the [fillStyle] set just before it. *)
Record FillRect : Type := mkFillRect {
  fillStyle : string;
  rect_x : number;
  rect_y : number;
  rect_w : number;
  rect_h : number
}.

(** The body of the inner loop of [draw_grid]; [canvas] is what has been
    painted so far. *)
Definition draw_cell (f : Forest) (cell_size : number) (row : Z)
    (canvas : list FillRect) (col : Z) : result (list FillRect) :=
  state ← get_state f row col;
  let color := color_of state in
  Ok (canvas ++ [mkFillRect color (times col cell_size) (times row cell_size)
                            cell_size cell_size]).

(** [Visualization.draw_grid] *)
Definition draw_grid (f : Forest) (canvas : list FillRect) : result (list FillRect) :=
  let size := size f in
  cell_size ← (if decide (size = 0) then Raise ZeroDivisionError
               else Ok (truediv width size));
  for_each (λ cv row, for_each (draw_cell f cell_size row) (py_range size) cv)
           (py_range size) canvas.

(** The rectangle that [draw_grid] paints for the position [p] of [f]: its
    side is [cell_size] = width / size, its corner is at
    (col * cell_size, row * cell_size), its color that of the state at [p]. *)
Definition paints (f : Forest) (p : Z * Z) (op : FillRect) : Prop :=
  let cell_size := truediv width (size f) in
  ∃ s, cell (grid f) p.1 p.2 = Some s ∧
       op = mkFillRect (color_of s) (times p.2 cell_size) (times p.1 cell_size)
              cell_size cell_size.

End Canvas.

(** * Properties *)

(** ** Indexing lemmas *)

Lemma Ok_bind {A B} (a : A) (k : A → result B) : Ok a ≫= k = k a.
Proof. reflexivity. Qed.

Lemma for_each_cons {A B} (body : B → A → result B) (x : A) (l : list A) (b : B) :
  for_each body (x :: l) b = body b x ≫= for_each body l.
Proof. reflexivity. Qed.

Lemma np_index_inside (len : nat) (i : Z) :
  0 ≤ i < Z.of_nat len → np_index len i = Ok (Z.to_nat i).
Proof. intros Hi. unfold np_index. by rewrite decide_True. Qed.

Lemma cell_lookup (g : Grid) (row col : Z) (s : TileState) :
  cell g row col = Some s ↔
  0 ≤ row ∧ 0 ≤ col ∧
  ∃ r, g !! Z.to_nat row = Some r ∧ r !! Z.to_nat col = Some s.
Proof.
  unfold cell. case_decide as Hd.
  - destruct (g !! Z.to_nat row) as [r|] eqn:Hr; simpl.
    + split; [intros Hs; repeat split; try lia; eauto|].
      intros (_ & _ & r' & Hr' & Hs). by simplify_eq.
    + split; [done|]. by intros (_ & _ & r' & Hr' & _).
  - split; [done|]. intros (? & ? & _). lia.
Qed.

Lemma cell_inside (n : nat) (g : Grid) (row col : Z) :
  shape n g →
  is_Some (cell g row col) ↔ (0 ≤ row < Z.of_nat n ∧ 0 ≤ col < Z.of_nat n).
Proof.
  intros [Hlen Hrows]. split.
  - intros [s Hs]. apply cell_lookup in Hs as (Hr0 & Hc0 & r & Hr & Hs).
    pose proof (lookup_lt_Some _ _ _ Hr) as Hlt.
    pose proof (lookup_lt_Some _ _ _ Hs) as Hlt'.
    rewrite Forall_lookup in Hrows. rewrite (Hrows _ _ Hr) in Hlt'. lia.
  - intros [Hr Hc].
    destruct (lookup_lt_is_Some_2 g (Z.to_nat row)) as [r Hrow]; [lia|].
    rewrite Forall_lookup in Hrows. pose proof (Hrows _ _ Hrow) as Hlr.
    destruct (lookup_lt_is_Some_2 r (Z.to_nat col)) as [s Hs]; [lia|].
    exists s. apply cell_lookup. eauto 10 with lia.
Qed.

Lemma np_getitem_cell (g : Grid) (row col : Z) (s : TileState) :
  cell g row col = Some s → np_getitem g row col = Ok s.
Proof.
  intros (Hr0 & Hc0 & r & Hr & Hs)%cell_lookup.
  pose proof (lookup_lt_Some _ _ _ Hr) as Hlt.
  pose proof (lookup_lt_Some _ _ _ Hs) as Hlt'.
  unfold np_getitem. rewrite np_index_inside by lia. simpl. rewrite Hr.
  rewrite np_index_inside by lia. simpl. by rewrite Hs.
Qed.

Lemma np_setitem_cell (g : Grid) (row col : Z) (v : TileState) :
  is_Some (cell g row col) →
  ∃ g', np_setitem g row col v = Ok g' ∧
        (∀ n, shape n g → shape n g') ∧
        ∀ i j, cell g' i j = if decide (i = row ∧ j = col) then Some v else cell g i j.
Proof.
  intros [s (Hr0 & Hc0 & r & Hr & Hs)%cell_lookup].
  pose proof (lookup_lt_Some _ _ _ Hr) as Hlt.
  pose proof (lookup_lt_Some _ _ _ Hs) as Hlt'.
  eexists. split; [|split].
  - unfold np_setitem. rewrite np_index_inside by lia. simpl. rewrite Hr.
    rewrite np_index_inside by lia. simpl. reflexivity.
  - intros n [Hlen Hrows]. split; [by rewrite length_insert|].
    apply Forall_insert; [done|]. rewrite length_insert.
    rewrite Forall_lookup in Hrows. eauto.
  - intros i j. unfold cell.
    destruct (decide (i = row ∧ j = col)) as [[-> ->]|Hij].
    + rewrite decide_True by lia.
      rewrite list_lookup_insert_eq by lia. simpl.
      by rewrite list_lookup_insert_eq by lia.
    + destruct (decide (0 ≤ i ∧ 0 ≤ j)) as [Hnn|]; [|done].
      destruct (decide (Z.to_nat i = Z.to_nat row)) as [Heq|Hne].
      * rewrite Heq. rewrite list_lookup_insert_eq by lia. rewrite Hr. simpl.
        rewrite list_lookup_insert_ne; [done|]. intros Hc. apply Hij. lia.
      * by rewrite list_lookup_insert_ne.
Qed.

Lemma get_state_cell (f : Forest) (row col : Z) (s : TileState) :
  wf f → cell (grid f) row col = Some s → get_state f row col = Ok s.
Proof.
  intros [Hsz Hshape] Hs.
  assert (is_Some (cell (grid f) row col)) as Hin by eauto.
  apply (cell_inside _ _ _ _ Hshape) in Hin. rewrite Z2Nat.id in Hin by done.
  unfold get_state, py_mod. rewrite decide_False by lia. simpl.
  rewrite decide_False by lia. simpl.
  rewrite !Z.mod_small by lia. by apply np_getitem_cell.
Qed.

Lemma elem_of_neighbors (a b : Z) :
  (a, b) ∈ neighbors ↔
  (a = -1 ∧ b = 0) ∨ (a = 1 ∧ b = 0) ∨ (a = 0 ∧ b = -1) ∨ (a = 0 ∧ b = 1).
Proof.
  unfold neighbors. rewrite !elem_of_cons, elem_of_nil.
  split; intros H; repeat destruct H as [H|H]; try done;
    first [ injection H as -> -> | destruct H as [-> ->] ]; auto 10.
Qed.

Lemma burning_true (g : Grid) (i j : Z) :
  burning g i j = true ↔
  ∃ r c, cell g r c = Some FIRE ∧ (i - r, j - c) ∈ neighbors.
Proof.
  unfold burning. rewrite existsb_exists. split.
  - intros ([dr dc] & Hd & Hf). apply bool_decide_eq_true in Hf. simpl in Hf.
    exists (i + dr), (j + dc). split; [done|].
    apply list_elem_of_In, elem_of_neighbors in Hd.
    apply elem_of_neighbors. lia.
  - intros (r & c & Hf & Hd). apply elem_of_neighbors in Hd.
    exists (r - i, c - j). split.
    + apply list_elem_of_In, elem_of_neighbors. lia.
    + apply bool_decide_eq_true. simpl.
      by replace (i + (r - i)) with r by lia; replace (j + (c - j)) with c by lia.
Qed.

Lemma affects_transition (g : Grid) (row col i j : Z) :
  affects g row col i j →
  transition g i j = if decide (i = row ∧ j = col) then Some ASHES else Some FIRE.
Proof.
  intros [Hf [[-> ->]|[Ht Hd]]]; unfold transition.
  - rewrite decide_True by done. by rewrite Hf.
  - rewrite decide_False by (intros [-> ->]; congruence).
    rewrite Ht. assert (burning g i j = true) as ->; [|done].
    apply burning_true; eauto.
Qed.

Lemma for_each_inv {A B} (I : list A → B → Prop) (body : B → A → result B)
    (l : list A) (b : B) :
  I [] b →
  (∀ done x b, x ∈ l → I done b → ∃ b', body b x = Ok b' ∧ I (done ++ [x]) b') →
  ∃ b', for_each body l b = Ok b' ∧ I l b'.
Proof.
  intros Hinit Hstep.
  cut (∀ done b, I done b → ∃ b', for_each body l b = Ok b' ∧ I (done ++ l) b').
  { intros Hgen. by apply (Hgen []). }
  clear Hinit b. induction l as [|x l IH]; intros done b Hb.
  - exists b. by rewrite app_nil_r.
  - destruct (Hstep done x b) as (b1 & Hb1 & HI1); [by left|done|].
    destruct (IH (λ d y c Hy, Hstep d y c (list_elem_of_further _ _ _ Hy)) (done ++ [x]) b1 HI1)
      as (b' & Hb' & HI').
    exists b'. rewrite for_each_cons, Hb1, Ok_bind. split; [done|].
    by rewrite <- app_assoc in HI'.
Qed.

Section Step.

Variable f : Forest.
Hypothesis f_wf : wf f.

Let n : nat := Z.to_nat (size f).
Let old : Grid := grid f.

Lemma spread_cell (row col : Z) (g : Grid) (d : Z * Z) :
  shape n g →
  ∃ g', spread f row col g d = Ok g' ∧ shape n g' ∧
        ∀ i j, cell g' i j =
               if decide (i = row + d.1 ∧ j = col + d.2 ∧ cell old i j = Some TREE)
               then Some FIRE else cell g i j.
Proof using f_wf.
  intros Hg. destruct f_wf as [Hsz Hold]. destruct d as [dr dc].
  unfold spread; simpl. case_decide as Hin.
  - assert (is_Some (cell old (row + dr) (col + dc))) as [s Hs].
    { apply (cell_inside n); [done|]. subst n. lia. }
    rewrite (get_state_cell _ _ _ s) by done. simpl.
    case_decide as Hs'.
    + subst s.
      destruct (np_setitem_cell g (row + dr) (col + dc) FIRE) as (g' & -> & Hsh & Hc).
      { apply (cell_inside n); [done|]. subst n. lia. }
      exists g'. split; [done|]. split; [by apply Hsh|].
      intros i j. rewrite Hc. simpl.
      destruct (decide (i = row + dr ∧ j = col + dc)) as [[-> ->]|Hne].
      * by rewrite decide_True.
      * rewrite decide_False; [done|]. intros (? & ? & _). by apply Hne.
    + exists g. split; [done|]. split; [done|].
      intros i j. rewrite decide_False; [done|].
      intros (-> & -> & Ht). fold old in Hs. congruence.
  - exists g. split; [done|]. split; [done|].
    intros i j. rewrite decide_False; [done|].
    intros (-> & -> & Ht).
    assert (is_Some (cell old (row + dr) (col + dc))) as Hi by eauto.
    apply (cell_inside n) in Hi; [|done]. subst n. lia.
Qed.

Lemma visit_cell (row col : Z) (g : Grid) :
  shape n g → 0 ≤ row < size f → 0 ≤ col < size f →
  ∃ g', visit f row g col = Ok g' ∧ shape n g' ∧
        ∀ i j, cell g' i j =
               if decide (affects old row col i j) then transition old i j
               else cell g i j.
Proof using f_wf.
  intros Hg Hrow Hcol. pose proof f_wf as [Hsz Hold].
  assert (is_Some (cell old row col)) as [s Hs].
  { apply (cell_inside n); [done|]. subst n. lia. }
  unfold visit. rewrite (get_state_cell _ _ _ s) by done. rewrite Ok_bind.
  case_decide as Hfire.
  - subst s.
    destruct (np_setitem_cell g row col ASHES) as (g0 & -> & Hsh0 & Hc0).
    { apply (cell_inside n); [done|]. subst n. lia. }
    rewrite Ok_bind. apply Hsh0 in Hg as Hg0. unfold neighbors.
    rewrite for_each_cons.
    destruct (spread_cell row col g0 (-1, 0) Hg0) as (g1 & -> & Hg1 & Hc1).
    rewrite Ok_bind, for_each_cons.
    destruct (spread_cell row col g1 (1, 0) Hg1) as (g2 & -> & Hg2 & Hc2).
    rewrite Ok_bind, for_each_cons.
    destruct (spread_cell row col g2 (0, -1) Hg2) as (g3 & -> & Hg3 & Hc3).
    rewrite Ok_bind, for_each_cons.
    destruct (spread_cell row col g3 (0, 1) Hg3) as (g4 & -> & Hg4 & Hc4).
    rewrite Ok_bind. exists g4. split; [done|]. split; [done|].
    intros i j. rewrite Hc4, Hc3, Hc2, Hc1, Hc0. simpl.
    destruct (decide (affects old row col i j)) as [Ha|Hna].
    + rewrite (affects_transition _ _ _ _ _ Ha).
      destruct Ha as [_ [[-> ->]|[Ht Hd]]].
      * repeat case_decide; try done; intuition (first [congruence | lia]).
      * apply elem_of_neighbors in Hd.
        repeat case_decide; try done; try (destruct_and?; congruence).
        exfalso. destruct Hd as [?|[?|[?|?]]];
          match goal with
          | H : ¬ (_ ∧ _ ∧ _) |- _ => apply H; split_and!; first [lia | done]
          end.
    + repeat case_decide; try done; destruct_and?; subst;
        exfalso; apply Hna; (split; [done|]);
        first [ by left | right; split; [done|]; apply elem_of_neighbors; lia ].
  - exists g. split; [done|]. split; [done|].
    intros i j. rewrite decide_False; [done|].
    intros [Hf _]. congruence.
Qed.

Lemma step_inv_weaken (P Q : Z → Z → Prop) (g : Grid) :
  (∀ r c, Q r c → P r c) → step_inv n old P g → step_inv n old Q g.
Proof.
  intros HPQ [Hsh Hc]. split; [done|]. intros i j. destruct (Hc i j) as [H1 H2].
  split; [done|]. intros r c Hq. apply H2. by apply HPQ.
Qed.

Lemma visit_inv (P : Z → Z → Prop) (row col : Z) (g : Grid) :
  step_inv n old P g → 0 ≤ row < size f → 0 ≤ col < size f →
  ∃ g', visit f row g col = Ok g' ∧
        step_inv n old (λ r c, P r c ∨ (r = row ∧ c = col)) g'.
Proof using f_wf.
  intros [Hsh Hc] Hrow Hcol.
  destruct (visit_cell row col g Hsh Hrow Hcol) as (g' & Hv & Hsh' & Hc').
  exists g'. split; [done|]. split; [done|].
  intros i j. rewrite Hc'. destruct (Hc i j) as [H1 H2].
  destruct (decide (affects old row col i j)) as [Ha|Hna].
  - split; [by right|done].
  - split; [done|]. intros r c [Hp|[-> ->]] Hr; [by eapply H2|done].
Qed.

(** The loop [for col in range(size)] for one row. *)
Lemma row_inv (dr : list Z) (row : Z) (g : Grid) :
  step_inv n old (λ r c, r ∈ dr ∧ 0 ≤ c < size f) g → 0 ≤ row < size f →
  ∃ g', for_each (visit f row) (py_range (size f)) g = Ok g' ∧
        step_inv n old (λ r c, r ∈ dr ++ [row] ∧ 0 ≤ c < size f) g'.
Proof using f_wf.
  intros Hg Hrow.
  destruct (for_each_inv
    (λ dc g, step_inv n old
               (λ r c, (r ∈ dr ∧ 0 ≤ c < size f) ∨ (r = row ∧ c ∈ dc)) g)
    (visit f row) (py_range (size f)) g) as (g' & Hg' & Hinv).
  - eapply step_inv_weaken; [|exact Hg]. intros r c [?|[_ Hnil]]; [done|].
    by apply elem_of_nil in Hnil.
  - intros dc col g0 Hcol Hg0. apply elem_of_seqZ in Hcol.
    destruct (visit_inv _ row col g0 Hg0) as (g1 & Hv & Hg1); [lia..|].
    exists g1. split; [done|]. eapply step_inv_weaken; [|exact Hg1].
    intros r c [?|[-> Hc]]; [by left; left|].
    apply elem_of_app in Hc as [Hc|Hc%list_elem_of_singleton]; [left|]; auto.
  - exists g'. split; [done|]. eapply step_inv_weaken; [|exact Hinv].
    intros r c [Hr Hc]. apply elem_of_app in Hr as [Hr|Hr%list_elem_of_singleton].
    + by left.
    + right. split; [done|]. apply elem_of_seqZ. lia.
Qed.

(** Both loops: every cell of the new grid is the transition of the old one. *)
Lemma loops_transition :
  ∃ g', for_each (λ g row, for_each (visit f row) (py_range (size f)) g)
                 (py_range (size f)) old = Ok g' ∧
        shape n g' ∧ ∀ i j, cell g' i j = transition old i j.
Proof using f_wf.
  pose proof f_wf as [Hsz Hold].
  destruct (for_each_inv
    (λ dr g, step_inv n old (λ r c, r ∈ dr ∧ 0 ≤ c < size f) g)
    (λ g row, for_each (visit f row) (py_range (size f)) g)
    (py_range (size f)) old) as (g' & Hg' & [Hsh Hc]).
  - split; [done|]. intros i j. split; [by left|].
    intros r c [Hnil _]. by apply elem_of_nil in Hnil.
  - intros dr row g0 Hrow Hg0. apply elem_of_seqZ in Hrow.
    apply row_inv; [done|lia].
  - exists g'. split; [done|]. split; [done|]. intros i j.
    destruct (Hc i j) as [H1 H2].
    assert (∀ r c, is_Some (cell old r c) →
                   r ∈ py_range (size f) ∧ 0 ≤ c < size f) as Hall.
    { intros r c Hin. apply (cell_inside n) in Hin; [|done].
      split; [apply elem_of_seqZ|]; subst n; lia. }
    destruct (cell old i j) as [s|] eqn:Hs.
    + destruct (decide (s = FIRE)) as [->|Hnf].
      { apply (H2 i j); [by apply Hall; rewrite Hs|]. split; [done|by left]. }
      destruct (decide (s = TREE)) as [->|Hnt].
      * destruct (burning old i j) eqn:Hb.
        -- apply burning_true in Hb as (r & c & Hf & Hd).
           apply (H2 r c); [by apply Hall; rewrite Hf|].
           split; [done|]. right. split; [done|].
           apply elem_of_neighbors in Hd. apply elem_of_neighbors. lia.
        -- destruct H1 as [H1|H1]; [|done]. rewrite H1.
           unfold transition. by rewrite Hs, Hb.
      * destruct H1 as [H1|H1]; [|done]. rewrite H1.
        unfold transition. rewrite Hs. by destruct s.
    + destruct H1 as [H1|H1]; [|done]. rewrite H1.
      unfold transition. by rewrite Hs.
Qed.

End Step.

(** ** One step *)

Lemma next_step_transition (s : Simulation) :
  wf (forest s) →
  ∃ s' p, next_step s = Ok (s', p) ∧
          wf (forest s') ∧
          size (forest s') = size (forest s) ∧
          time_step s' = time_step s + 1 ∧
          ∀ i j, cell (grid (forest s')) i j = transition (grid (forest s)) i j.
Proof.
  intros Hwf. destruct (loops_transition _ Hwf) as (g' & Hg' & Hsh & Hc).
  unfold next_step. rewrite Hg', Ok_bind. do 2 eexists. split; [reflexivity|].
  simpl. split; [|done]. split; [apply Hwf|done].
Qed.

Lemma burning_cases (g : Grid) (i j : Z) :
  burning g i j = true ↔
  cell g (i - 1) j = Some FIRE ∨ cell g (i + 1) j = Some FIRE ∨
  cell g i (j - 1) = Some FIRE ∨ cell g i (j + 1) = Some FIRE.
Proof.
  unfold burning, neighbors. simpl. rewrite !orb_true_iff, !bool_decide_eq_true.
  rewrite !Z.add_0_r. change (i + -1) with (i - 1). change (j + -1) with (j - 1).
  intuition congruence.
Qed.

Lemma transition_fire (g : Grid) (i j : Z) :
  transition g i j = Some FIRE ↔ cell g i j = Some TREE ∧ burning g i j = true.
Proof.
  unfold transition. destruct (cell g i j) as [[]|]; try (split; [done|by intros []]).
  destruct (burning g i j); split; try done; by intros [].
Qed.

(** ** Claims about the transition rule *)

(** C3: after one step every cell that was Fire is Ash, and every cell that
    was Ash or Empty is unchanged. *)
Theorem C3_fire_decays_ash_empty_stay (s : Simulation) :
  wf (forest s) →
  ∃ s' p, next_step s = Ok (s', p) ∧
    ∀ i j,
      (cell (grid (forest s)) i j = Some FIRE →
       cell (grid (forest s')) i j = Some ASHES) ∧
      (cell (grid (forest s)) i j = Some ASHES →
       cell (grid (forest s')) i j = Some ASHES) ∧
      (cell (grid (forest s)) i j = Some EMPTY →
       cell (grid (forest s')) i j = Some EMPTY).
Proof.
  intros Hwf.
  destruct (next_step_transition s Hwf) as (s' & p & Hs' & _ & _ & _ & Hc).
  exists s', p. split; [done|]. intros i j. rewrite Hc. unfold transition.
  repeat split; by intros ->.
Qed.

Lemma wf_center_fire : wf (mkForest 3 grid_center_fire).
Proof. split; [done|]. split; [done|]. by repeat constructor. Qed.

Lemma wf_corner_fire : wf (mkForest 3 grid_corner_fire).
Proof. split; [done|]. split; [done|]. by repeat constructor. Qed.

Lemma C3_witness :
  ∃ s' p, next_step (mkSimulation (mkForest 3 grid_center_fire) 0) = Ok (s', p) ∧
    ∀ i j,
      (cell grid_center_fire i j = Some FIRE →
       cell (grid (forest s')) i j = Some ASHES) ∧
      (cell grid_center_fire i j = Some ASHES →
       cell (grid (forest s')) i j = Some ASHES) ∧
      (cell grid_center_fire i j = Some EMPTY →
       cell (grid (forest s')) i j = Some EMPTY).
Proof.
  exact (C3_fire_decays_ash_empty_stay
           (mkSimulation (mkForest 3 grid_center_fire) 0) wf_center_fire).
Defined.

(** C4: on the 3x3 grid whose center burns and whose other cells are trees,
    one step leaves the center Ash, the four orthogonal neighbors Fire and the
    four diagonal neighbors Tree. *)
Theorem C4_center_fire_3x3 :
  ∃ s' p, next_step (mkSimulation (mkForest 3 grid_center_fire) 0) = Ok (s', p) ∧
    let g' := grid (forest s') in
    cell g' 1 1 = Some ASHES ∧
    cell g' 0 1 = Some FIRE ∧ cell g' 2 1 = Some FIRE ∧
    cell g' 1 0 = Some FIRE ∧ cell g' 1 2 = Some FIRE ∧
    cell g' 0 0 = Some TREE ∧ cell g' 0 2 = Some TREE ∧
    cell g' 2 0 = Some TREE ∧ cell g' 2 2 = Some TREE.
Proof. do 2 eexists. split; [vm_compute; reflexivity|]. by vm_compute. Qed.

(** C1, as stated, fails: on the 3x3 grid whose corner (0,0) burns and whose
    other cells are trees, the trees at (2,0) and (0,2) are still trees after
    one step. *)
Lemma C1_counterexample :
  cell grid_corner_fire 0 0 = Some FIRE ∧
  cell grid_corner_fire 2 0 = Some TREE ∧
  cell grid_corner_fire 0 2 = Some TREE ∧
  ∃ s' p, next_step (mkSimulation (mkForest 3 grid_corner_fire) 0) = Ok (s', p) ∧
    cell (grid (forest s')) 2 0 = Some TREE ∧
    cell (grid (forest s')) 0 2 = Some TREE.
Proof.
  split_and!; try done. do 2 eexists. split; [vm_compute; reflexivity|].
  by vm_compute.
Qed.

(** C1, amended: the neighbor lookup of the rule is clipped at the edges of
    the grid.  With (0,0) Fire and Trees at (N-1,0) and (0,N-1), N >= 2, the
    tree at (N-1,0) burns after one step exactly when (N-2,0) or (N-1,1)
    burned before it, the tree at (0,N-1) exactly when (0,N-2) or (1,N-1) did,
    and each is a Tree otherwise; trees at (1,0) and (0,1) are ignited. *)
Theorem C1_edges_do_not_wrap (s : Simulation) (N : Z) :
  wf (forest s) → size (forest s) = N → 2 ≤ N →
  let g := grid (forest s) in
  cell g 0 0 = Some FIRE →
  cell g (N - 1) 0 = Some TREE →
  cell g 0 (N - 1) = Some TREE →
  ∃ s' p, next_step s = Ok (s', p) ∧
    let g' := grid (forest s') in
    cell g' (N - 1) 0 =
      Some (if decide (cell g (N - 2) 0 = Some FIRE ∨ cell g (N - 1) 1 = Some FIRE)
            then FIRE else TREE) ∧
    cell g' 0 (N - 1) =
      Some (if decide (cell g 0 (N - 2) = Some FIRE ∨ cell g 1 (N - 1) = Some FIRE)
            then FIRE else TREE) ∧
    (cell g 1 0 = Some TREE → cell g' 1 0 = Some FIRE) ∧
    (cell g 0 1 = Some TREE → cell g' 0 1 = Some FIRE).
Proof.
  intros Hwf HN H2 g H00 Hr Hc.
  destruct (next_step_transition s Hwf) as (s' & p & Hs' & _ & _ & _ & Hcell).
  exists s', p. split; [done|]. simpl. rewrite !Hcell. fold g.
  assert (∀ i j, ¬ (0 ≤ i < N ∧ 0 ≤ j < N) → cell g i j ≠ Some FIRE) as Hout.
  { intros i j Hij Hf. apply Hij.
    assert (is_Some (cell g i j)) as Hin by eauto.
    apply (cell_inside _ _ _ _ (proj2 Hwf)) in Hin. lia. }
  split_and!.
  - unfold transition. rewrite Hr. f_equal.
    destruct (burning g (N - 1) 0) eqn:Hb.
    + apply burning_cases in Hb. rewrite decide_True; [done|].
      replace (N - 1 - 1) with (N - 2) in Hb by lia. simpl in Hb.
      destruct Hb as [?|[Hb|[Hb|?]]]; auto; exfalso; revert Hb; apply Hout; lia.
    + rewrite decide_False; [done|]. intros Hor.
      apply not_true_iff_false in Hb. apply Hb, burning_cases.
      replace (N - 1 - 1) with (N - 2) by lia. simpl. tauto.
  - unfold transition. rewrite Hc. f_equal.
    destruct (burning g 0 (N - 1)) eqn:Hb.
    + apply burning_cases in Hb. rewrite decide_True; [done|].
      replace (N - 1 - 1) with (N - 2) in Hb by lia. simpl in Hb.
      destruct Hb as [Hb|[?|[?|Hb]]]; auto; exfalso; revert Hb; apply Hout; lia.
    + rewrite decide_False; [done|]. intros Hor.
      apply not_true_iff_false in Hb. apply Hb, burning_cases.
      replace (N - 1 - 1) with (N - 2) by lia. simpl. tauto.
  - intros Ht. apply transition_fire. split; [done|]. apply burning_cases.
    simpl. auto.
  - intros Ht. apply transition_fire. split; [done|]. apply burning_cases.
    simpl. auto.
Qed.

Lemma C1_witness :
  ∃ s' p, next_step (mkSimulation (mkForest 3 grid_corner_fire) 0) = Ok (s', p) ∧
    let g := grid_corner_fire in
    let g' := grid (forest s') in
    cell g' (3 - 1) 0 =
      Some (if decide (cell g (3 - 2) 0 = Some FIRE ∨ cell g (3 - 1) 1 = Some FIRE)
            then FIRE else TREE) ∧
    cell g' 0 (3 - 1) =
      Some (if decide (cell g 0 (3 - 2) = Some FIRE ∨ cell g 1 (3 - 1) = Some FIRE)
            then FIRE else TREE) ∧
    (cell g 1 0 = Some TREE → cell g' 1 0 = Some FIRE) ∧
    (cell g 0 1 = Some TREE → cell g' 0 1 = Some FIRE).
Proof.
  apply (C1_edges_do_not_wrap (mkSimulation (mkForest 3 grid_corner_fire) 0) 3);
    [exact wf_corner_fire | reflexivity | lia | reflexivity..].
Defined.

(** ** Construction and coordinate access *)

Lemma shape_replicate (n : nat) (x : TileState) :
  shape n (replicate n (replicate n x)).
Proof.
  split; [by rewrite length_replicate|].
  apply Forall_replicate. by rewrite length_replicate.
Qed.

Lemma cell_replicate (n : nat) (x : TileState) (i j : Z) :
  0 ≤ i < Z.of_nat n → 0 ≤ j < Z.of_nat n →
  cell (replicate n (replicate n x)) i j = Some x.
Proof.
  intros Hi Hj. apply cell_lookup. split_and!; [lia..|].
  exists (replicate n x). split; apply lookup_replicate; split; (done || lia).
Qed.

(** On every platform [Forest(0)] is the forest with no cell. *)
Lemma Forest_init_zero (alloc : Z → allocation) :
  Forest_init alloc 0 = Ok (mkForest 0 []).
Proof. reflexivity. Qed.

(** What a constructed forest is, whatever the platform. *)
Lemma Forest_init_Ok (alloc : Z → allocation) (N : Z) (f : Forest) :
  Forest_init alloc N = Ok f →
  0 ≤ N ∧
  f = mkForest N (replicate (Z.to_nat N) (replicate (Z.to_nat N) EMPTY)).
Proof.
  unfold Forest_init, np_full. intros Hinit.
  destruct (decide (N < 0)) as [|HN]; [done|].
  destruct (decide (N = 0)) as [->|HN0].
  - rewrite Ok_bind in Hinit. injection Hinit as <-. by split.
  - destruct (alloc N); try done. rewrite Ok_bind in Hinit.
    injection Hinit as <-. split; [lia|done].
Qed.

(** C2, as stated, fails at N = 0: the constructor raises nothing and returns
    the grid with no cell. *)
Lemma C2_counterexample :
  Forest_init alloc_example 0 = Ok (mkForest 0 []) ∧
  raises (Forest_init alloc_example 0) = false.
Proof. split; [apply Forest_init_zero|by rewrite Forest_init_zero]. Qed.

(** C2, amended: the constructor checks nothing itself.  For N < 0 numpy
    refuses the negative dimensions with a ValueError.  For N = 0, and for
    every N > 0 for which numpy allocates an N x N array, construction
    succeeds and yields an N x N grid with every cell Empty.  For an N > 0
    that is too much for numpy on the platform, construction fails with
    numpy's ValueError (dimension or array too big) or MemoryError. *)
Theorem C2_construct (alloc : Z → allocation) (N : Z) :
  (N < 0 → Forest_init alloc N = Raise ValueError) ∧
  (N = 0 ∨ (0 < N ∧ alloc N = Allocated) →
   ∃ f, Forest_init alloc N = Ok f ∧ size f = N ∧ wf f ∧
        ∀ i j, 0 ≤ i < N → 0 ≤ j < N → cell (grid f) i j = Some EMPTY) ∧
  (0 < N → alloc N = TooBig → Forest_init alloc N = Raise ValueError) ∧
  (0 < N → alloc N = NoMemory → Forest_init alloc N = Raise MemoryError).
Proof.
  unfold Forest_init, np_full. split_and!.
  - intros HN. by rewrite decide_True.
  - intros [->|[HN Ha]].
    + exists (mkForest 0 []). split; [done|]. split; [done|].
      split; [by repeat split|]. intros i j Hi. lia.
    + rewrite !decide_False by lia. rewrite Ha, Ok_bind. eexists.
      split; [done|]. simpl. split; [done|].
      split; [split; [simpl; lia|apply shape_replicate]|].
      intros i j Hi Hj. apply cell_replicate; lia.
  - intros HN Ha. rewrite !decide_False by lia. by rewrite Ha.
  - intros HN Ha. rewrite !decide_False by lia. by rewrite Ha.
Qed.

Lemma C2_witness :
  Forest_init alloc_example (-1) = Raise ValueError ∧
  (∃ f, Forest_init alloc_example 0 = Ok f ∧ size f = 0 ∧ wf f ∧
        ∀ i j, 0 ≤ i < 0 → 0 ≤ j < 0 → cell (grid f) i j = Some EMPTY) ∧
  (∃ f, Forest_init alloc_example 2 = Ok f ∧ size f = 2 ∧ wf f ∧
        ∀ i j, 0 ≤ i < 2 → 0 ≤ j < 2 → cell (grid f) i j = Some EMPTY) ∧
  Forest_init alloc_example (2 ^ 63) = Raise ValueError ∧
  Forest_init alloc_example (2 ^ 15) = Raise MemoryError.
Proof.
  split_and!.
  - apply (proj1 (C2_construct alloc_example (-1))). lia.
  - apply (proj1 (proj2 (C2_construct alloc_example 0))). by left.
  - apply (proj1 (proj2 (C2_construct alloc_example 2))). right.
    split; [lia|reflexivity].
  - apply (proj1 (proj2 (proj2 (C2_construct alloc_example (2 ^ 63)))));
      reflexivity.
  - apply (proj2 (proj2 (proj2 (C2_construct alloc_example (2 ^ 15)))));
      reflexivity.
Defined.

(** C7: for a grid of size N > 0 and any integers [row] and [col], negative
    ones included, [get_state] returns and [set_state] writes the cell at
    (row mod N, col mod N), which lies inside the grid. *)
Theorem C7_get_set_wrap (f : Forest) (row col : Z) (v : TileState) :
  wf f → 0 < size f →
  let N := size f in
  0 ≤ row `mod` N < N ∧ 0 ≤ col `mod` N < N ∧
  (∃ s, get_state f row col = Ok s ∧
        cell (grid f) (row `mod` N) (col `mod` N) = Some s) ∧
  (∃ f', set_state f row col v = Ok f' ∧ wf f' ∧ size f' = N ∧
         ∀ i j, cell (grid f') i j =
                if decide (i = row `mod` N ∧ j = col `mod` N) then Some v
                else cell (grid f) i j).
Proof.
  intros [Hsz Hsh] Hpos N.
  pose proof (Z.mod_pos_bound row N Hpos) as Hr.
  pose proof (Z.mod_pos_bound col N Hpos) as Hc.
  assert (is_Some (cell (grid f) (row `mod` N) (col `mod` N))) as Hin.
  { apply (cell_inside _ _ _ _ Hsh). fold N. lia. }
  split_and!; try lia.
  - destruct Hin as [s Hs]. exists s. split; [|done].
    unfold get_state, py_mod. fold N. rewrite !decide_False by lia.
    rewrite !Ok_bind.
    by apply np_getitem_cell.
  - destruct (np_setitem_cell (grid f) _ _ v Hin) as (g' & Hg' & Hsh' & Hcell).
    exists (mkForest N g'). split_and!; try done.
    unfold set_state, py_mod. fold N. rewrite !decide_False by lia.
    rewrite !Ok_bind.
    by rewrite Hg'.
    split; [done|]. by apply Hsh'.
Qed.

Lemma C7_witness :
  let f := mkForest 3 grid_corner_fire in
  let N := 3 in
  0 ≤ (-1) `mod` N < N ∧ 0 ≤ (-4) `mod` N < N ∧
  (∃ s, get_state f (-1) (-4) = Ok s ∧
        cell (grid f) ((-1) `mod` N) ((-4) `mod` N) = Some s) ∧
  (∃ f', set_state f (-1) (-4) ASHES = Ok f' ∧ wf f' ∧ size f' = N ∧
         ∀ i j, cell (grid f') i j =
                if decide (i = (-1) `mod` N ∧ j = (-4) `mod` N) then Some ASHES
                else cell (grid f) i j).
Proof.
  apply (C7_get_set_wrap (mkForest 3 grid_corner_fire) (-1) (-4) ASHES
           wf_corner_fire).
  simpl. lia.
Defined.

(** ** Counting cells *)

Lemma count_row_indicator (s : TileState) (r : list TileState) :
  length (filter (λ b, b = true) ((λ x, bool_decide (x = s)) <$> r)) =
  sum_list_with (indicator s) r.
Proof.
  induction r as [|x r IH]; [done|].
  rewrite fmap_cons, filter_cons. simpl. rewrite <- IH. unfold indicator.
  destruct (decide (x = s)) as [->|Hne].
  - rewrite bool_decide_eq_true_2 by done. by rewrite decide_True.
  - rewrite bool_decide_eq_false_2 by done. by rewrite decide_False.
Qed.

Lemma count_total (s : TileState) (g : Grid) : count s g = total (indicator s) g.
Proof.
  unfold count, np_count_nonzero, np_eq, total.
  induction g as [|r g IH]; [done|].
  rewrite fmap_cons, concat_cons, filter_app, length_app, IH.
  simpl. by rewrite count_row_indicator.
Qed.

Lemma total_add (w1 w2 : TileState → nat) (g : Grid) :
  total (λ x, (w1 x + w2 x)%nat) g = (total w1 g + total w2 g)%nat.
Proof.
  unfold total. induction g as [|r g IH]; [done|]. simpl. rewrite IH.
  assert (sum_list_with (λ x, (w1 x + w2 x)%nat) r =
          (sum_list_with w1 r + sum_list_with w2 r)%nat) as ->; [|lia].
  induction r as [|x r IHr]; [done|]. simpl. rewrite IHr. lia.
Qed.

Lemma total_le (w w' : TileState → nat) (g g' : Grid) :
  Forall2 (Forall2 (λ a b, (w' b ≤ w a)%nat)) g g' →
  (total w' g' ≤ total w g)%nat.
Proof.
  unfold total. induction 1 as [|r r' g g' Hr _ IH]; [done|]. simpl.
  assert (sum_list_with w' r' ≤ sum_list_with w r)%nat; [|lia].
  clear IH. induction Hr as [|a b r r' Hab _ IHr]; [done|]. simpl. lia.
Qed.

Lemma total_one (n : nat) (g : Grid) :
  shape n g → total (λ _, 1%nat) g = (n * n)%nat.
Proof.
  intros [Hlen Hrows]. unfold total.
  assert (∀ r : list TileState, sum_list_with (λ _, 1%nat) r = length r) as Hone.
  { induction r as [|x r IH]; [done|]. simpl. by rewrite IH. }
  rewrite <- Hlen at 1. clear Hlen.
  induction Hrows as [|r g Hr _ IH]; [done|]. simpl. rewrite Hone, Hr, IH. lia.
Qed.

Lemma cells_Forall2 (R : TileState → TileState → Prop) (n : nat) (g g' : Grid) :
  shape n g → shape n g' →
  (∀ i j a b, cell g i j = Some a → cell g' i j = Some b → R a b) →
  Forall2 (Forall2 R) g g'.
Proof.
  intros [Hlen Hrows] [Hlen' Hrows'] HR.
  rewrite Forall_lookup in Hrows. rewrite Forall_lookup in Hrows'.
  apply Forall2_same_length_lookup. split; [congruence|].
  intros i r r' Hr Hr'. apply Forall2_same_length_lookup.
  split; [by rewrite (Hrows _ _ Hr), (Hrows' _ _ Hr')|].
  intros j a b Ha Hb. apply (HR (Z.of_nat i) (Z.of_nat j)).
  - apply cell_lookup. split_and!; [lia..|]. rewrite !Nat2Z.id. eauto.
  - apply cell_lookup. split_and!; [lia..|]. rewrite !Nat2Z.id. eauto.
Qed.

Lemma count_pos_cell (s : TileState) (g : Grid) :
  (0 < count s g)%nat ↔ ∃ i j, cell g i j = Some s.
Proof.
  rewrite count_total. unfold total. split.
  - intros Hpos.
    assert (∃ i r, g !! i = Some r ∧ (0 < sum_list_with (indicator s) r)%nat)
      as (i & r & Hr & Hpr).
    { induction g as [|r g IH]; [simpl in Hpos; lia|]. simpl in Hpos.
      destruct (decide (0 < sum_list_with (indicator s) r)%nat) as [Hp|Hz].
      - by exists 0%nat, r.
      - destruct IH as (i & r' & ? & ?); [lia|]. by exists (S i), r'. }
    assert (∃ j, r !! j = Some s) as [j Hj].
    { clear Hr. induction r as [|x r IH]; [simpl in Hpr; lia|]. simpl in Hpr.
      unfold indicator in Hpr at 1. destruct (decide (x = s)) as [->|Hne].
      - by exists 0%nat.
      - destruct IH as [j ?]; [lia|]. by exists (S j). }
    exists (Z.of_nat i), (Z.of_nat j). apply cell_lookup.
    split_and!; [lia..|]. rewrite !Nat2Z.id. eauto.
  - intros (i & j & (_ & _ & r & Hr & Hs)%cell_lookup).
    apply list_elem_of_lookup_2 in Hr. apply list_elem_of_lookup_2 in Hs.
    pose proof (sum_list_with_in _ (sum_list_with (indicator s)) _ Hr) as H1.
    pose proof (sum_list_with_in _ (indicator s) _ Hs) as H2.
    unfold indicator in H2 at 1. rewrite decide_True in H2 by done. lia.
Qed.

Lemma has_fire_count (s : Simulation) :
  has_fire s = true ↔ (0 < count FIRE (grid (forest s)))%nat.
Proof.
  unfold has_fire. rewrite count_total. unfold np_any, np_eq, total.
  induction (grid (forest s)) as [|r g IH]; [simpl; split; [done|lia]|].
  rewrite fmap_cons. simpl. rewrite orb_true_iff, IH.
  assert (existsb id ((λ x, bool_decide (x = FIRE)) <$> r) = true ↔
          (0 < sum_list_with (indicator FIRE) r)%nat) as ->; [|lia].
  clear IH. induction r as [|x r IHr]; [simpl; split; [done|lia]|].
  rewrite fmap_cons. simpl. rewrite orb_true_iff, IHr. unfold indicator.
  rewrite bool_decide_eq_true.
  destruct (decide (x = FIRE)); [split; [lia|auto]|]. split; [|lia].
  intros [?|?]; [done|lia].
Qed.

(** ** The fire dies out *)

Lemma step_potential (s s' : Simulation) (p : ChartPoint) :
  wf (forest s) → next_step s = Ok (s', p) →
  (count TREE (grid (forest s')) + count FIRE (grid (forest s'))
   ≤ count TREE (grid (forest s)))%nat.
Proof.
  intros Hwf Hs.
  destruct (next_step_transition s Hwf) as (s1 & p1 & Hs1 & Hwf' & Hsz & _ & Hc).
  rewrite Hs in Hs1. injection Hs1 as <- <-.
  rewrite !count_total, <- total_add. apply total_le.
  apply (cells_Forall2 _ (Z.to_nat (size (forest s)))).
  - apply Hwf.
  - rewrite <- Hsz. apply Hwf'.
  - intros i j a b Ha Hb. rewrite Hc in Hb. unfold transition in Hb.
    rewrite Ha in Hb. unfold indicator.
    destruct a; try destruct (burning _ _ _); by injection Hb as <-.
Qed.

Lemma step_no_new_fire (s s' : Simulation) (p : ChartPoint) :
  wf (forest s) → next_step s = Ok (s', p) →
  has_fire s' = true → has_fire s = true.
Proof.
  intros Hwf Hs.
  destruct (next_step_transition s Hwf) as (s1 & p1 & Hs1 & _ & _ & _ & Hc).
  rewrite Hs in Hs1. injection Hs1 as <- <-.
  rewrite !has_fire_count, !count_pos_cell. intros (i & j & Hf).
  rewrite Hc in Hf. apply transition_fire in Hf as [_ Hb].
  apply burning_true in Hb as (r & c & Hrc & _). eauto.
Qed.

Lemma steps_S (k : nat) (s : Simulation) :
  steps (S k) s = next_step s ≫= λ '(s', _), steps k s'.
Proof. reflexivity. Qed.

Lemma steps_add (a b : nat) (s : Simulation) :
  steps (a + b) s = steps a s ≫= steps b.
Proof.
  revert s. induction a as [|a IH]; intros s; [done|].
  change (S a + b)%nat with (S (a + b)). rewrite !steps_S.
  destruct (next_step s) as [[s' p]|e]; [|done]. simpl. apply IH.
Qed.

(** [steps] never raises on a well-formed forest, and keeps it well-formed. *)
Lemma steps_wf (k : nat) (s : Simulation) :
  wf (forest s) →
  ∃ s', steps k s = Ok s' ∧ wf (forest s') ∧ size (forest s') = size (forest s).
Proof.
  revert s. induction k as [|k IH]; intros s Hwf; [by exists s|].
  destruct (next_step_transition s Hwf) as (s1 & p1 & Hs1 & Hwf1 & Hsz1 & _).
  destruct (IH s1 Hwf1) as (s' & Hs' & Hwf' & Hsz').
  exists s'. rewrite steps_S, Hs1, Ok_bind. split_and!; [done..|congruence].
Qed.

Lemma no_fire_stays (k : nat) (s s' : Simulation) :
  wf (forest s) → has_fire s = false → steps k s = Ok s' → has_fire s' = false.
Proof.
  revert s. induction k as [|k IH]; intros s Hwf Hnf Hk.
  - simpl in Hk. by injection Hk as <-.
  - destruct (next_step_transition s Hwf) as (s1 & p1 & Hs1 & Hwf1 & _).
    rewrite steps_S, Hs1, Ok_bind in Hk. apply (IH s1); [done| |done].
    apply not_true_iff_false. intros Hf1.
    apply (step_no_new_fire s s1 p1 Hwf Hs1) in Hf1. congruence.
Qed.

(** While the fire burns, every step costs a tree. *)
Lemma steps_bound (k : nat) (s s' : Simulation) :
  wf (forest s) → steps k s = Ok s' → has_fire s' = true →
  (count TREE (grid (forest s')) + count FIRE (grid (forest s')) + k
   ≤ count TREE (grid (forest s)) + count FIRE (grid (forest s)))%nat.
Proof.
  revert s. induction k as [|k IH]; intros s Hwf Hk Hf.
  - simpl in Hk. injection Hk as <-. lia.
  - destruct (next_step_transition s Hwf) as (s1 & p1 & Hs1 & Hwf1 & _).
    rewrite steps_S, Hs1, Ok_bind in Hk.
    pose proof (IH s1 Hwf1 Hk Hf) as Hle.
    pose proof (step_potential s s1 p1 Hwf Hs1) as Hpot.
    assert (has_fire s = true) as Hf0.
    { apply not_false_iff_true. intros Hnf.
      pose proof (no_fire_stays (S k) s s' Hwf Hnf) as Hn.
      rewrite steps_S, Hs1, Ok_bind in Hn. specialize (Hn Hk). congruence. }
    apply has_fire_count in Hf0. lia.
Qed.

Lemma tree_fire_le (n : nat) (g : Grid) :
  shape n g → (count TREE g + count FIRE g ≤ n * n)%nat.
Proof.
  intros Hsh. rewrite !count_total, <- total_add, <- (total_one n g Hsh).
  apply total_le. apply (cells_Forall2 _ n); [done..|].
  intros i j a b Ha Hb. unfold indicator. repeat case_decide; subst; (done || lia).
Qed.

(** C8: from any N x N grid with a burning cell, and with nothing but steps
    in between, some number k <= N^2 of steps reaches a state without fire,
    and every later state is without fire too. *)
Theorem C8_fire_dies_within_N2 (s : Simulation) :
  wf (forest s) → has_fire s = true →
  let N := Z.to_nat (size (forest s)) in
  ∃ k, (k ≤ N * N)%nat ∧
       ∀ m, (k ≤ m)%nat → ∃ s', steps m s = Ok s' ∧ has_fire s' = false.
Proof.
  intros Hwf Hf N. exists (N * N)%nat. split; [done|]. intros m Hm.
  destruct (steps_wf (N * N) s Hwf) as (sk & Hsk & Hwfk & Hszk).
  destruct (steps_wf (m - N * N) sk Hwfk) as (s' & Hs' & _).
  exists s'. split.
  - replace m with (N * N + (m - N * N))%nat by lia.
    by rewrite steps_add, Hsk, Ok_bind.
  - apply (no_fire_stays (m - N * N) sk s' Hwfk); [|done].
    apply not_true_iff_false. intros Hfk.
    pose proof (steps_bound _ _ _ Hwf Hsk Hfk) as Hb.
    pose proof (tree_fire_le N _ (proj2 Hwf)) as Hle.
    apply has_fire_count in Hfk. lia.
Qed.

Lemma C8_witness :
  ∃ k, (k ≤ 3 * 3)%nat ∧
       ∀ m, (k ≤ m)%nat →
            ∃ s', steps m (mkSimulation (mkForest 3 grid_center_fire) 0) = Ok s' ∧
                  has_fire s' = false.
Proof.
  apply (C8_fire_dies_within_N2 (mkSimulation (mkForest 3 grid_center_fire) 0)
           wf_center_fire).
  reflexivity.
Defined.

(** ** Writing one cell, and the positions of a state *)

Lemma sum_list_with_insert {A} (w : A → nat) (l : list A) (i : nat) (x y : A) :
  l !! i = Some x →
  (sum_list_with w (<[i:=y]> l) + w x = sum_list_with w l + w y)%nat.
Proof.
  revert i. induction l as [|a l IH]; intros [|i] Hi; try done.
  - injection Hi as ->. simpl. lia.
  - simpl in *. specialize (IH i Hi). lia.
Qed.

Lemma np_setitem_total (g g' : Grid) (row col : Z) (u v : TileState)
    (w : TileState → nat) :
  cell g row col = Some u → np_setitem g row col v = Ok g' →
  (total w g' + w u = total w g + w v)%nat.
Proof.
  intros (Hr0 & Hc0 & r & Hr & Hu)%cell_lookup.
  pose proof (lookup_lt_Some _ _ _ Hr) as Hlt.
  pose proof (lookup_lt_Some _ _ _ Hu) as Hlt'.
  unfold np_setitem. rewrite np_index_inside by lia. rewrite Ok_bind, Hr.
  rewrite np_index_inside by lia. rewrite Ok_bind. intros [= <-]. unfold total.
  pose proof (sum_list_with_insert (sum_list_with w) g _ _
                (<[Z.to_nat col:=v]> r) Hr) as H1.
  pose proof (sum_list_with_insert w r _ _ v Hu) as H2. lia.
Qed.

Lemma where_row_lookup (row col : Z) (bs : list bool) (p : Z * Z) :
  p ∈ where_row row col bs ↔
  ∃ j : nat, p = (row, col + Z.of_nat j) ∧ bs !! j = Some true.
Proof.
  revert col. induction bs as [|b bs IH]; intros col; simpl.
  - rewrite elem_of_nil. split; [done|]. by intros (j & _ & ?).
  - rewrite elem_of_app, IH. split.
    + intros [Hb|(j & -> & Hj)].
      * destruct b; [|by apply elem_of_nil in Hb].
        apply list_elem_of_singleton in Hb as ->. exists 0%nat.
        split; [f_equal; lia|done].
      * exists (S j). split; [f_equal; lia|done].
    + intros ([|j] & -> & Hj).
      * left. injection Hj as ->. apply list_elem_of_singleton. f_equal. lia.
      * right. exists j. split; [f_equal; lia|done].
Qed.

Lemma where_rows_lookup (row : Z) (m : Mask) (p : Z * Z) :
  p ∈ where_rows row m ↔
  ∃ (i j : nat) bs, p = (row + Z.of_nat i, Z.of_nat j) ∧
                    m !! i = Some bs ∧ bs !! j = Some true.
Proof.
  revert row. induction m as [|bs m IH]; intros row; simpl.
  - rewrite elem_of_nil. split; [done|]. by intros (i & j & bs & _ & ? & _).
  - rewrite elem_of_app, IH, where_row_lookup. split.
    + intros [(j & -> & Hj)|(i & j & bs' & -> & Hi & Hj)].
      * exists 0%nat, j, bs. split; [f_equal; lia|done].
      * exists (S i), j, bs'. split; [f_equal; lia|done].
    + intros ([|i] & j & bs' & -> & Hi & Hj).
      * left. injection Hi as ->. exists j. split; [f_equal; lia|done].
      * right. exists i, j, bs'. split; [f_equal; lia|done].
Qed.

Lemma np_where_cell (g : Grid) (s : TileState) (row col : Z) :
  (row, col) ∈ np_where (np_eq g s) ↔ cell g row col = Some s.
Proof.
  unfold np_where, np_eq. rewrite where_rows_lookup, cell_lookup. split.
  - intros (i & j & bs & [= -> ->] & Hi & Hj).
    rewrite list_lookup_fmap in Hi.
    destruct (g !! i) as [r|] eqn:Hr; [|done]. injection Hi as <-.
    rewrite list_lookup_fmap in Hj.
    destruct (r !! j) as [x|] eqn:Hx; [|done]. injection Hj as Hj.
    apply bool_decide_eq_true in Hj as ->.
    split_and!; [lia..|]. exists r. rewrite Z.add_0_l, !Nat2Z.id. done.
  - intros (Hr0 & Hc0 & r & Hr & Hs).
    exists (Z.to_nat row), (Z.to_nat col), ((λ x, bool_decide (x = s)) <$> r).
    split_and!.
    + f_equal; lia.
    + by rewrite list_lookup_fmap, Hr.
    + rewrite list_lookup_fmap, Hs. simpl. by rewrite bool_decide_eq_true_2.
Qed.

Lemma length_np_where (g : Grid) (s : TileState) :
  length (np_where (np_eq g s)) = count s g.
Proof.
  unfold count, np_count_nonzero, np_where. generalize (np_eq g s) 0.
  intros m. induction m as [|bs m IH]; intros row; [done|]. simpl.
  rewrite filter_app, !length_app, IH. f_equal. generalize 0.
  induction bs as [|b bs IHb]; intros col; [done|]. simpl.
  rewrite filter_cons, length_app, IHb. by destruct b.
Qed.

(** The enumeration of all positions that [plant_trees] shuffles. *)
Lemma elem_of_available_positions (N i j : Z) :
  (i, j) ∈ available_positions N ↔ 0 ≤ i < N ∧ 0 ≤ j < N.
Proof.
  unfold available_positions, py_range. rewrite list_elem_of_bind. split.
  - intros (i' & (j' & Hp & Hj)%list_elem_of_bind & Hi).
    apply list_elem_of_singleton in Hp as [= -> ->].
    apply elem_of_seqZ in Hi, Hj. lia.
  - intros [Hi Hj]. exists i. split; [|apply elem_of_seqZ; lia].
    apply list_elem_of_bind. exists j. split; [|apply elem_of_seqZ; lia].
    by apply list_elem_of_singleton.
Qed.

Lemma NoDup_available_positions (N : Z) : NoDup (available_positions N).
Proof.
  unfold available_positions, py_range. apply NoDup_bind; [| |apply NoDup_seqZ].
  - intros i1 i2 [a b] _ _ (j1 & H1 & _)%list_elem_of_bind
      (j2 & H2 & _)%list_elem_of_bind.
    apply list_elem_of_singleton in H1, H2. congruence.
  - intros i _. apply NoDup_bind; [| |apply NoDup_seqZ].
    + intros j1 j2 [a b] _ _ H1%list_elem_of_singleton H2%list_elem_of_singleton.
      congruence.
    + intros j _. apply NoDup_singleton.
Qed.

Lemma length_available_positions (N : Z) :
  length (available_positions N) = (Z.to_nat N * Z.to_nat N)%nat.
Proof.
  unfold available_positions, py_range.
  assert (∀ (l : list Z) (k : nat) (h : Z → list (Z * Z)),
            (∀ x, length (h x) = k) → length (l ≫= h) = (length l * k)%nat) as Hb.
  { intros l k h Hh. induction l as [|x l IH]; [done|].
    rewrite bind_cons, length_app, IH, Hh. simpl. lia. }
  rewrite (Hb _ (Z.to_nat N)); [by rewrite length_seqZ|].
  intros i. rewrite (Hb _ 1%nat); [rewrite length_seqZ; lia|done].
Qed.

(** ** Seeding *)

(** The loop of [plant_trees] plants the first [num_trees - i] positions of
    [ps], whatever they held; when they are distinct and held no tree, each
    one adds a tree. *)
Lemma plant_loop_spec (n : nat) (num_trees : Z) (ps : list (Z * Z)) :
  ∀ (i : Z) (g : Grid),
    shape n g → (∀ p, p ∈ ps → is_Some (cell g p.1 p.2)) →
    ∃ g', plant_loop num_trees i ps g = Ok g' ∧ shape n g' ∧
      (∀ r c, cell g' r c =
              if decide ((r, c) ∈ take (Z.to_nat (num_trees - i)) ps)
              then Some TREE else cell g r c) ∧
      (NoDup ps → (∀ p, p ∈ ps → cell g p.1 p.2 ≠ Some TREE) →
       count TREE g' =
       (count TREE g + length (take (Z.to_nat (num_trees - i)) ps))%nat).
Proof.
  induction ps as [|[row col] ps IH]; intros i g Hsh Hin.
  - exists g. split_and!; [done..| |].
    + intros r c. rewrite take_nil. rewrite decide_False; [done|].
      apply not_elem_of_nil.
    + intros _ _. rewrite take_nil. simpl. lia.
  - simpl. case_decide as Hi.
    + replace (Z.to_nat (num_trees - i)) with 0%nat by lia.
      exists g. split_and!; [done..| |].
      * intros r c. rewrite decide_False; [done|]. apply not_elem_of_nil.
      * intros _ _. simpl. lia.
    + destruct (np_setitem_cell g row col TREE) as (g1 & Hg1 & Hsh1 & Hc1).
      { apply (Hin (row, col)). by left. }
      destruct (IH (i + 1) g1) as (g' & Hg' & Hsh' & Hc' & Hcount).
      { by apply Hsh1. }
      { intros [r c] Hp. simpl. rewrite Hc1. case_decide; [done|].
        apply (Hin (r, c)). by right. }
      exists g'. rewrite Hg1, Ok_bind.
      replace (Z.to_nat (num_trees - i))
        with (S (Z.to_nat (num_trees - (i + 1)))) by lia.
      split_and!; [done..| |].
      * intros r c. rewrite Hc', Hc1. simpl.
        destruct (decide ((r, c) ∈ take (Z.to_nat (num_trees - (i + 1))) ps))
          as [Hd|Hd].
        -- rewrite decide_True; [done|]. by right.
        -- destruct (decide (r = row ∧ c = col)) as [[-> ->]|Hne].
           ++ rewrite decide_True; [done|]. by left.
           ++ rewrite decide_False; [done|].
              intros [[= -> ->]|?]%elem_of_cons; [by apply Hne|done].
      * intros [Hnotin Hnd]%NoDup_cons Hnt.
        rewrite Hcount; [|done|].
        -- destruct (Hin (row, col)) as [u Hu]; [by left|]. simpl in Hu.
           pose proof (np_setitem_total g g1 row col u TREE (indicator TREE)
                         Hu Hg1) as Ht.
           assert (u ≠ TREE) as Hne.
           { intros ->. by apply (Hnt (row, col)); [left|]. }
           rewrite <- !count_total in Ht. unfold indicator in Ht.
           rewrite (decide_False (P := u = TREE)) in Ht by done.
           rewrite (decide_True (P := TREE = TREE)) in Ht by done.
           simpl. lia.
        -- intros [r c] Hp. simpl. rewrite Hc1. rewrite decide_False.
           ++ apply (Hnt (r, c)). by right.
           ++ intros [-> ->]. by apply Hnotin.
Qed.

Section Random.

(** The platform of numpy, and what numpy promises of its two random calls. *)
Variable alloc : Z → allocation.
Variable shuffle : list (Z * Z) → list (Z * Z).
Variable choice : nat → nat.
Hypothesis shuffle_perm : ∀ l, shuffle l ≡ₚ l.
Hypothesis choice_lt : ∀ n, (0 < n)%nat → (choice n < n)%nat.

Lemma planted_take (N num_trees : Z) :
  0 ≤ N →
  planted shuffle N num_trees =
  take (Z.to_nat (num_trees - 0)) (shuffle (available_positions N)).
Proof using shuffle_perm.
  intros HN. unfold planted. rewrite Z.sub_0_r.
  destruct (decide (num_trees ≤ N * N)) as [Hle|Hgt].
  - by rewrite Z.min_l.
  - rewrite Z.min_r by lia. rewrite !take_ge; [done|..];
      rewrite shuffle_perm, length_available_positions; nia.
Qed.

Lemma planted_facts (N num_trees : Z) :
  0 ≤ N →
  NoDup (planted shuffle N num_trees) ∧
  length (planted shuffle N num_trees) = Z.to_nat (Z.min num_trees (N * N)) ∧
  ∀ i j, (i, j) ∈ planted shuffle N num_trees → 0 ≤ i < N ∧ 0 ≤ j < N.
Proof using shuffle_perm.
  intros HN. unfold planted. split_and!.
  - eapply sublist_NoDup; [|apply sublist_take].
    rewrite shuffle_perm. apply NoDup_available_positions.
  - rewrite length_take, shuffle_perm, length_available_positions. nia.
  - intros i j Hp%elem_of_take. destruct Hp as (k & Hk%list_elem_of_lookup_2 & _).
    rewrite shuffle_perm in Hk. by apply elem_of_available_positions.
Qed.

Lemma plant_trees_spec (num_trees : Z) (f : Forest) :
  wf f →
  ∃ f', plant_trees shuffle num_trees f = Ok f' ∧
        size f' = size f ∧ wf f' ∧
        (∀ i j, cell (grid f') i j =
                if decide ((i, j) ∈ planted shuffle (size f) num_trees) then Some TREE
                else cell (grid f) i j) ∧
        ((∀ i j, cell (grid f) i j ≠ Some TREE) →
         count TREE (grid f') =
         (count TREE (grid f) + length (planted shuffle (size f) num_trees))%nat).
Proof using shuffle_perm.
  intros [Hsz Hsh].
  assert (∀ p, p ∈ shuffle (available_positions (size f)) →
               is_Some (cell (grid f) p.1 p.2)) as Hin.
  { intros [i j] Hp. rewrite shuffle_perm in Hp.
    apply elem_of_available_positions in Hp.
    apply (cell_inside _ _ _ _ Hsh). simpl. lia. }
  destruct (plant_loop_spec _ num_trees _ 0 (grid f) Hsh Hin)
    as (g' & Hg' & Hsh' & Hc & Hcount).
  exists (mkForest (size f) g'). unfold plant_trees. rewrite Hg', Ok_bind.
  rewrite planted_take by done. split_and!; try done.
  intros Hnt. apply Hcount.
  - rewrite shuffle_perm. apply NoDup_available_positions.
  - intros p _. apply Hnt.
Qed.

Lemma ignite_tree_spec (f : Forest) :
  ∃ f', ignite_tree choice f = Ok f' ∧ size f' = size f ∧ (wf f → wf f') ∧
    ((count TREE (grid f) = 0%nat ∧ f' = f) ∨
     ((0 < count TREE (grid f))%nat ∧
      ∃ r c, cell (grid f) r c = Some TREE ∧
             np_setitem (grid f) r c FIRE = Ok (grid f') ∧
             ∀ i j, cell (grid f') i j =
                    if decide (i = r ∧ j = c) then Some FIRE
                    else cell (grid f) i j)).
Proof using choice_lt.
  unfold ignite_tree. pose proof (length_np_where (grid f) TREE) as Hlen.
  pose proof (np_where_cell (grid f) TREE) as Hwhere.
  destruct (np_where (np_eq (grid f) TREE)) as [|p0 ps] eqn:Hps.
  - exists f. split_and!; [done..|]. left. by rewrite <- Hlen.
  - destruct (lookup_lt_is_Some_2 (p0 :: ps) (choice (length (p0 :: ps))))
      as [[r c] Hrc].
    { apply choice_lt. simpl. lia. }
    rewrite Hrc. apply list_elem_of_lookup_2, Hwhere in Hrc.
    destruct (np_setitem_cell (grid f) r c FIRE) as (g' & Hg' & Hsh & Hc);
      [by eauto|].
    exists (mkForest (size f) g'). rewrite Hg', Ok_bind.
    split_and!; [done..| |].
    + intros [Hsz Hwf]. split; [done|]. by apply Hsh.
    + right. split; [rewrite <- Hlen; simpl; lia|]. by exists r, c.
Qed.

(** C5: after [Forest(N)] and then [plant_trees(Z)], if 0 < Z <= N^2 exactly
    Z cells are Tree and all other cells are Empty; if Z > N^2 all N^2 cells
    are Tree; if Z <= 0 the grid is unchanged. *)
Theorem C5_construct_then_plant (N num_trees : Z) (f : Forest) :
  Forest_init alloc N = Ok f →
  ∃ f', plant_trees shuffle num_trees f = Ok f' ∧
    (0 < num_trees ≤ N * N →
     Z.of_nat (count TREE (grid f')) = num_trees ∧
     Z.of_nat (count EMPTY (grid f')) = N * N - num_trees ∧
     ∀ i j, 0 ≤ i < N → 0 ≤ j < N →
            cell (grid f') i j = Some TREE ∨ cell (grid f') i j = Some EMPTY) ∧
    (N * N < num_trees →
     Z.of_nat (count TREE (grid f')) = N * N ∧
     ∀ i j, 0 ≤ i < N → 0 ≤ j < N → cell (grid f') i j = Some TREE) ∧
    (num_trees ≤ 0 → f' = f).
Proof using shuffle_perm.
  intros Hinit. apply Forest_init_Ok in Hinit as [HN ->].
  set (f := mkForest N (replicate (Z.to_nat N) (replicate (Z.to_nat N) EMPTY))).
  assert (wf f) as Hwf. { split; [simpl; lia|apply shape_replicate]. }
  assert (∀ i j, 0 ≤ i < N → 0 ≤ j < N → cell (grid f) i j = Some EMPTY) as Hempty.
  { intros i j Hi Hj. apply cell_replicate; lia. }
  assert (∀ i j, cell (grid f) i j ≠ Some TREE) as Hnt.
  { intros i j Ht. assert (is_Some (cell (grid f) i j)) as Hin by eauto.
    apply (cell_inside _ _ _ _ (proj2 Hwf)) in Hin. simpl in Hin.
    rewrite Hempty in Ht by lia. done. }
  assert (count TREE (grid f) = 0%nat) as Hzero.
  { destruct (decide (0 < count TREE (grid f))%nat) as [Hpos|]; [|lia].
    apply count_pos_cell in Hpos as (i & j & Ht). by apply Hnt in Ht. }
  destruct (plant_trees_spec num_trees f Hwf) as (f' & Hf' & Hsz & Hwf' & Hc & Hcount).
  specialize (Hcount Hnt). rewrite Hzero in Hcount.
  change (size f) with N in Hcount, Hc, Hsz.
  destruct (planted_facts N num_trees) as (Hnd & Hlen & Hin); [lia|].
  simpl in Hc. exists f'. split; [done|]. split_and!.
  - intros Hz.
    assert (∀ i j, 0 ≤ i < N → 0 ≤ j < N →
              cell (grid f') i j = Some TREE ∨ cell (grid f') i j = Some EMPTY) as Hte.
    { intros i j Hi Hj. rewrite Hc. case_decide; [by left|right; by apply Hempty]. }
    assert (Z.of_nat (count TREE (grid f')) = num_trees) as Htree.
    { rewrite Hcount, Hlen. lia. }
    split_and!; [done| |done].
    assert (count TREE (grid f') + count EMPTY (grid f')
            = Z.to_nat N * Z.to_nat N)%nat as Hsum; [|nia].
    destruct Hwf' as [_ Hsh']. rewrite Hsz in Hsh'. simpl in Hsh'.
    rewrite !count_total, <- total_add, <- (total_one _ _ Hsh').
    apply Nat.le_antisymm; apply total_le;
      apply (cells_Forall2 _ _ _ _ Hsh' Hsh'); intros i j a b Ha Hb;
      assert (is_Some (cell (grid f') i j)) as Hij by eauto;
      apply (cell_inside _ _ _ _ Hsh') in Hij;
      assert (b = a) as -> by congruence;
      destruct (Hte i j ltac:(lia) ltac:(lia)) as [Ht|Ht]; rewrite Ha in Ht;
      injection Ht as ->; by vm_compute.
  - intros Hz. split; [rewrite Hcount, Hlen; nia|].
    intros i j Hi Hj. rewrite Hc. rewrite decide_True; [done|].
    unfold planted. rewrite take_ge.
    + rewrite shuffle_perm. by apply elem_of_available_positions.
    + rewrite shuffle_perm, length_available_positions. nia.
  - intros Hz. unfold plant_trees in Hf'.
    destruct (shuffle (available_positions (size f))) as [|[r c] ps];
      simpl in Hf'; [|rewrite decide_True in Hf' by lia; simpl in Hf'];
      by injection Hf' as <-.
Qed.

(** C9: on any grid, [plant_trees(Z)] sets the first min(Z, N^2) positions of
    the shuffled enumeration of all N^2 positions to Tree, whatever they held
    (Fire and Ash included), and every other position keeps its state. *)
Theorem C9_plant_overwrites_selection (num_trees : Z) (f : Forest) :
  wf f →
  let N := size f in
  let selection :=
    take (Z.to_nat (Z.min num_trees (N * N))) (shuffle (available_positions N)) in
  (∀ i j, (i, j) ∈ shuffle (available_positions N) ↔ 0 ≤ i < N ∧ 0 ≤ j < N) ∧
  NoDup selection ∧
  length selection = Z.to_nat (Z.min num_trees (N * N)) ∧
  ∃ f', plant_trees shuffle num_trees f = Ok f' ∧
        size f' = N ∧
        ∀ i j, cell (grid f') i j =
               if decide ((i, j) ∈ selection) then Some TREE
               else cell (grid f) i j.
Proof using shuffle_perm.
  intros Hwf N selection.
  destruct (planted_facts N num_trees) as (Hnd & Hlen & _); [apply Hwf|].
  destruct (plant_trees_spec num_trees f Hwf) as (f' & Hf' & Hsz & _ & Hc & _).
  split_and!; [|done|done|by exists f'].
  intros i j. rewrite shuffle_perm. apply elem_of_available_positions.
Qed.

(** C6: [ignite_tree] on a grid without a Tree returns it unchanged, raising
    nothing; on a grid with a Tree it adds exactly one to the number of Fire
    cells and takes exactly one from the number of Tree cells. *)
Theorem C6_ignite_counts (f : Forest) :
  (count TREE (grid f) = 0%nat → ignite_tree choice f = Ok f) ∧
  ((0 < count TREE (grid f))%nat →
   ∃ f', ignite_tree choice f = Ok f' ∧
         count FIRE (grid f') = (count FIRE (grid f) + 1)%nat ∧
         (count TREE (grid f') + 1)%nat = count TREE (grid f)).
Proof using choice_lt.
  destruct (ignite_tree_spec f) as (f' & Hf' & _ & _ & Hcases).
  split; intros Hcount.
  - destruct Hcases as [[_ ->]|[Hpos _]]; [done|lia].
  - destruct Hcases as [[Hz _]|[_ (r & c & Ht & Hset & _)]]; [lia|].
    exists f'. split; [done|].
    pose proof (np_setitem_total _ _ _ _ _ _ (indicator FIRE) Ht Hset) as HF.
    pose proof (np_setitem_total _ _ _ _ _ _ (indicator TREE) Ht Hset) as HT.
    rewrite <- !count_total in HF, HT. vm_compute indicator in HF, HT. lia.
Qed.

Lemma set_state_wf (f : Forest) (row col : Z) (v : TileState) :
  wf f → 0 < size f →
  ∃ f', set_state f row col v = Ok f' ∧ wf f' ∧ size f' = size f.
Proof.
  intros [Hsz Hsh] Hpos.
  pose proof (Z.mod_pos_bound row _ Hpos) as Hr.
  pose proof (Z.mod_pos_bound col _ Hpos) as Hc.
  destruct (np_setitem_cell (grid f) (row `mod` size f) (col `mod` size f) v)
    as (g' & Hg' & Hsh' & _).
  { apply (cell_inside _ _ _ _ Hsh). lia. }
  exists (mkForest (size f) g'). unfold set_state, py_mod.
  rewrite !decide_False by lia. rewrite !Ok_bind, Hg', Ok_bind.
  split_and!; [done| |done]. split; [done|]. by apply Hsh'.
Qed.

(** C10: [ignite_tree] either leaves the forest as it is or changes exactly
    one cell, a Tree that becomes Fire, every other cell keeping its state;
    and neither it nor [plant_trees], [set_state] or [next_step] changes the
    dimensions of the grid. *)
Theorem C10_ignite_one_cell_dimensions_kept
    (f : Forest) (num_trees row col t : Z) (v : TileState) :
  wf f →
  (∃ f', ignite_tree choice f = Ok f' ∧ wf f' ∧ size f' = size f ∧
     (f' = f ∨
      ∃ r c, cell (grid f) r c = Some TREE ∧
             ∀ i j, cell (grid f') i j =
                    if decide (i = r ∧ j = c) then Some FIRE
                    else cell (grid f) i j)) ∧
  (∃ f', plant_trees shuffle num_trees f = Ok f' ∧ wf f' ∧ size f' = size f) ∧
  (0 < size f →
   ∃ f', set_state f row col v = Ok f' ∧ wf f' ∧ size f' = size f) ∧
  (∃ s' p, next_step (mkSimulation f t) = Ok (s', p) ∧
           wf (forest s') ∧ size (forest s') = size f).
Proof using shuffle_perm choice_lt.
  intros Hwf. split_and!.
  - destruct (ignite_tree_spec f) as (f' & Hf' & Hsz & Hwf' & Hcases).
    exists f'. split_and!; [done|by apply Hwf'|done|].
    destruct Hcases as [[_ ->]|[_ (r & c & Ht & _ & Hc)]]; [by left|right].
    by exists r, c.
  - destruct (plant_trees_spec num_trees f Hwf) as (f' & Hf' & Hsz & Hwf' & _).
    by exists f'.
  - by apply set_state_wf.
  - destruct (next_step_transition (mkSimulation f t) Hwf)
      as (s' & p & Hs' & Hwf' & Hsz & _).
    by exists s', p.
Qed.

End Random.

(** ** The claims on concrete forests

    The shuffle that reverses its argument and the choice of the last index
    are two outcomes numpy can produce. *)

Lemma last_index_lt (n : nat) : (0 < n)%nat → (Nat.pred n < n)%nat.
Proof. lia. Qed.

Lemma C5_witness :
  ∃ f', plant_trees reverse 3 (mkForest 2 [[EMPTY; EMPTY]; [EMPTY; EMPTY]]) = Ok f' ∧
    (0 < 3 ≤ 2 * 2 →
     Z.of_nat (count TREE (grid f')) = 3 ∧
     Z.of_nat (count EMPTY (grid f')) = 2 * 2 - 3 ∧
     ∀ i j, 0 ≤ i < 2 → 0 ≤ j < 2 →
            cell (grid f') i j = Some TREE ∨ cell (grid f') i j = Some EMPTY) ∧
    (2 * 2 < 3 →
     Z.of_nat (count TREE (grid f')) = 2 * 2 ∧
     ∀ i j, 0 ≤ i < 2 → 0 ≤ j < 2 → cell (grid f') i j = Some TREE) ∧
    (3 ≤ 0 → f' = mkForest 2 [[EMPTY; EMPTY]; [EMPTY; EMPTY]]).
Proof.
  apply (C5_construct_then_plant alloc_example reverse
           (@reverse_Permutation _) 2 3).
  reflexivity.
Defined.

Lemma C6_witness :
  (count TREE grid_center_fire = 0%nat →
   ignite_tree Nat.pred (mkForest 3 grid_center_fire)
   = Ok (mkForest 3 grid_center_fire)) ∧
  ((0 < count TREE grid_center_fire)%nat →
   ∃ f', ignite_tree Nat.pred (mkForest 3 grid_center_fire) = Ok f' ∧
         count FIRE (grid f') = (count FIRE grid_center_fire + 1)%nat ∧
         (count TREE (grid f') + 1)%nat = count TREE grid_center_fire).
Proof.
  exact (C6_ignite_counts Nat.pred last_index_lt (mkForest 3 grid_center_fire)).
Defined.

Lemma C9_witness :
  let f := mkForest 3 grid_center_fire in
  let N := 3 in
  let selection :=
    take (Z.to_nat (Z.min 5 (N * N))) (reverse (available_positions N)) in
  (∀ i j, (i, j) ∈ reverse (available_positions N) ↔ 0 ≤ i < N ∧ 0 ≤ j < N) ∧
  NoDup selection ∧
  length selection = Z.to_nat (Z.min 5 (N * N)) ∧
  ∃ f', plant_trees reverse 5 f = Ok f' ∧
        size f' = N ∧
        ∀ i j, cell (grid f') i j =
               if decide ((i, j) ∈ selection) then Some TREE
               else cell (grid f) i j.
Proof.
  exact (C9_plant_overwrites_selection reverse (@reverse_Permutation _) 5
           (mkForest 3 grid_center_fire) wf_center_fire).
Defined.

Lemma C10_witness :
  let f := mkForest 3 grid_center_fire in
  (∃ f', ignite_tree Nat.pred f = Ok f' ∧ wf f' ∧ size f' = size f ∧
     (f' = f ∨
      ∃ r c, cell (grid f) r c = Some TREE ∧
             ∀ i j, cell (grid f') i j =
                    if decide (i = r ∧ j = c) then Some FIRE
                    else cell (grid f) i j)) ∧
  (∃ f', plant_trees reverse 5 f = Ok f' ∧ wf f' ∧ size f' = size f) ∧
  (0 < size f →
   ∃ f', set_state f (-1) 7 EMPTY = Ok f' ∧ wf f' ∧ size f' = size f) ∧
  (∃ s' p, next_step (mkSimulation f 0) = Ok (s', p) ∧
           wf (forest s') ∧ size (forest s') = size f).
Proof.
  exact (C10_ignite_one_cell_dimensions_kept reverse Nat.pred
           (@reverse_Permutation _) last_index_lt
           (mkForest 3 grid_center_fire) 5 (-1) 7 0 EMPTY wf_center_fire).
Defined.

(** * Further properties of the simulation core *)

(** ** One step, in full *)

(** The result of [next_step], chart point included. *)
Lemma next_step_result (s : Simulation) :
  wf (forest s) →
  ∃ g', next_step s =
          Ok (mkSimulation (mkForest (size (forest s)) g') (time_step s + 1),
              mkChartPoint (time_step s + 1) (count TREE g') (count ASHES g')) ∧
        shape (Z.to_nat (size (forest s))) g' ∧
        ∀ i j, cell g' i j = transition (grid (forest s)) i j.
Proof.
  intros Hwf. destruct (loops_transition _ Hwf) as (g' & Hg' & Hsh & Hc).
  exists g'. unfold next_step. by rewrite Hg', Ok_bind.
Qed.

Lemma grid_ext (n : nat) (g g' : Grid) :
  shape n g → shape n g' → (∀ i j, cell g i j = cell g' i j) → g = g'.
Proof.
  intros [Hlen Hrows] [Hlen' Hrows'] Hc.
  rewrite Forall_lookup in Hrows. rewrite Forall_lookup in Hrows'.
  apply (list_eq_same_length _ _ n); [done..|].
  intros i r r' Hi Hr Hr'.
  apply (list_eq_same_length _ _ n); [by eauto..|].
  intros j a b Hj Ha Hb.
  assert (cell g (Z.of_nat i) (Z.of_nat j) = Some a) as H1.
  { apply cell_lookup. split_and!; [lia..|]. rewrite !Nat2Z.id. eauto. }
  assert (cell g' (Z.of_nat i) (Z.of_nat j) = Some b) as H2.
  { apply cell_lookup. split_and!; [lia..|]. rewrite !Nat2Z.id. eauto. }
  rewrite Hc in H1. congruence.
Qed.

Lemma total_eq (w w' : TileState → nat) (g g' : Grid) :
  Forall2 (Forall2 (λ a b, w' b = w a)) g g' → total w' g' = total w g.
Proof.
  intros H. apply Nat.le_antisymm.
  - apply total_le. eapply Forall2_impl; [exact H|]. intros r r' Hr.
    eapply Forall2_impl; [exact Hr|]. simpl. intros; lia.
  - apply total_le. apply Forall2_flip. eapply Forall2_impl; [exact H|].
    intros r r' Hr. apply Forall2_flip. eapply Forall2_impl; [exact Hr|].
    simpl. intros; lia.
Qed.

(** Sums of weights before and after a step, from the rule cell by cell. *)
Lemma step_total (s s' : Simulation) (p : ChartPoint) (w w' : TileState → nat) :
  wf (forest s) → next_step s = Ok (s', p) →
  (∀ a b, (a = FIRE → b = ASHES) → (a = TREE → b = TREE ∨ b = FIRE) →
          (a = EMPTY → b = EMPTY) → (a = ASHES → b = ASHES) → w' b = w a) →
  total w' (grid (forest s')) = total w (grid (forest s)).
Proof.
  intros Hwf Hs Hw.
  destruct (next_step_result s Hwf) as (g' & Hs1 & Hsh & Hc).
  rewrite Hs in Hs1. injection Hs1 as -> ->. simpl.
  apply total_eq, (cells_Forall2 _ _ _ _ (proj2 Hwf) Hsh).
  intros i j a b Ha Hb. rewrite Hc in Hb. unfold transition in Hb.
  rewrite Ha in Hb. apply Hw; intros ->; try destruct (burning _ _ _);
    injection Hb as <-; auto.
Qed.

Lemma count_all (n : nat) (g : Grid) :
  shape n g →
  (count EMPTY g + count TREE g + count FIRE g + count ASHES g = n * n)%nat.
Proof.
  intros Hsh. rewrite !count_total, <- !total_add, <- (total_one n g Hsh).
  apply total_eq, (cells_Forall2 _ n); [done..|].
  intros i j a b _ _. by destruct b.
Qed.

(** X1: in one step a Tree becomes Fire exactly when the cell above, below,
    left or right of it, inside the grid, is Fire, and stays a Tree
    otherwise: diagonal cells and cells across an edge never ignite it. *)
Theorem tree_ignites_iff_neighbor_burns (s : Simulation) :
  wf (forest s) →
  ∃ s' p, next_step s = Ok (s', p) ∧
    ∀ i j,
      let g := grid (forest s) in
      cell g i j = Some TREE →
      cell (grid (forest s')) i j =
      Some (if decide (cell g (i - 1) j = Some FIRE ∨ cell g (i + 1) j = Some FIRE ∨
                       cell g i (j - 1) = Some FIRE ∨ cell g i (j + 1) = Some FIRE)
            then FIRE else TREE).
Proof.
  intros Hwf.
  destruct (next_step_transition s Hwf) as (s' & p & Hs' & _ & _ & _ & Hc).
  exists s', p. split; [done|]. intros i j g Ht. rewrite Hc. unfold transition.
  fold g. rewrite Ht. f_equal. destruct (burning g i j) eqn:Hb.
  - apply burning_cases in Hb. by rewrite decide_True.
  - rewrite decide_False; [done|]. intros Hor%burning_cases. congruence.
Qed.

Lemma tree_ignites_witness :
  ∃ s' p, next_step (mkSimulation (mkForest 3 grid_corner_fire) 0) = Ok (s', p) ∧
    ∀ i j,
      let g := grid_corner_fire in
      cell g i j = Some TREE →
      cell (grid (forest s')) i j =
      Some (if decide (cell g (i - 1) j = Some FIRE ∨ cell g (i + 1) j = Some FIRE ∨
                       cell g i (j - 1) = Some FIRE ∨ cell g i (j + 1) = Some FIRE)
            then FIRE else TREE).
Proof.
  exact (tree_ignites_iff_neighbor_burns
           (mkSimulation (mkForest 3 grid_corner_fire) 0) wf_corner_fire).
Defined.

(** X2: a step on a forest without fire changes nothing but the clock: the
    forest is returned as it was, and the chart point carries the new time
    and the unchanged numbers of Tree and Ash cells. *)
Theorem step_without_fire_keeps_forest (s : Simulation) :
  wf (forest s) → has_fire s = false →
  next_step s =
  Ok (mkSimulation (forest s) (time_step s + 1),
      mkChartPoint (time_step s + 1)
        (count TREE (grid (forest s))) (count ASHES (grid (forest s)))).
Proof.
  intros Hwf Hnf. destruct (next_step_result s Hwf) as (g' & Hs' & Hsh & Hc).
  assert (g' = grid (forest s)) as ->.
  { apply (grid_ext _ _ _ Hsh (proj2 Hwf)). intros i j. rewrite Hc.
    unfold transition. destruct (cell (grid (forest s)) i j) as [[]|] eqn:Hij;
      try done.
    - destruct (burning (grid (forest s)) i j) eqn:Hb; [|done].
      apply burning_true in Hb as (r & c & Hf & _).
      assert (has_fire s = true); [|congruence].
      apply has_fire_count, count_pos_cell. eauto.
    - assert (has_fire s = true); [|congruence].
      apply has_fire_count, count_pos_cell. eauto. }
  rewrite Hs'. by destruct s as [[sz g] t].
Qed.

Lemma wf_burnt_out : wf (mkForest 3 grid_burnt_out).
Proof. split; [done|]. split; [done|]. by repeat constructor. Qed.

Lemma step_without_fire_witness :
  next_step (mkSimulation (mkForest 3 grid_burnt_out) 4) =
  Ok (mkSimulation (mkForest 3 grid_burnt_out) (4 + 1),
      mkChartPoint (4 + 1) (count TREE grid_burnt_out) (count ASHES grid_burnt_out)).
Proof.
  exact (step_without_fire_keeps_forest
           (mkSimulation (mkForest 3 grid_burnt_out) 4) wf_burnt_out eq_refl).
Defined.

Lemma step_counts (s s' : Simulation) (p : ChartPoint) :
  wf (forest s) → next_step s = Ok (s', p) →
  let g := grid (forest s) in
  let g' := grid (forest s') in
  count EMPTY g' = count EMPTY g ∧
  count ASHES g' = (count ASHES g + count FIRE g)%nat ∧
  (count TREE g' + count FIRE g')%nat = count TREE g.
Proof.
  intros Hwf Hs. simpl. split_and!.
  - rewrite !count_total. apply (step_total _ _ _ _ _ Hwf Hs).
    intros a b H1 H2 H3 H4. unfold indicator.
    destruct a; [rewrite H3|destruct H2 as [->| ->]|rewrite H1|rewrite H4]; done.
  - rewrite !count_total, <- total_add. apply (step_total _ _ _ _ _ Hwf Hs).
    intros a b H1 H2 H3 H4. unfold indicator.
    destruct a; [rewrite H3|destruct H2 as [->| ->]|rewrite H1|rewrite H4]; done.
  - rewrite !count_total, <- total_add. apply (step_total _ _ _ _ _ Hwf Hs).
    intros a b H1 H2 H3 H4. unfold indicator.
    destruct a; [rewrite H3|destruct H2 as [->| ->]|rewrite H1|rewrite H4]; done.
Qed.

(** X3: the accounting of one step.  The number of Empty cells is unchanged,
    the Ash cells after the step are the Ash and the Fire cells before it,
    the Tree and Fire cells after it are the Tree cells before it, the four
    numbers add up to N^2, and the chart point reports the new time and the
    Tree and Ash cells of the new grid. *)
Theorem step_accounting (s : Simulation) :
  wf (forest s) →
  ∃ s' p, next_step s = Ok (s', p) ∧
    let g := grid (forest s) in
    let g' := grid (forest s') in
    let N := Z.to_nat (size (forest s)) in
    count EMPTY g' = count EMPTY g ∧
    count ASHES g' = (count ASHES g + count FIRE g)%nat ∧
    (count TREE g' + count FIRE g')%nat = count TREE g ∧
    (count EMPTY g' + count TREE g' + count FIRE g' + count ASHES g' = N * N)%nat ∧
    p = mkChartPoint (time_step s + 1) (count TREE g') (count ASHES g').
Proof.
  intros Hwf. destruct (next_step_result s Hwf) as (g' & Hs' & Hsh & Hc).
  destruct (step_counts _ _ _ Hwf Hs') as (H1 & H2 & H3).
  do 2 eexists. split; [exact Hs'|]. simpl in *.
  split_and!; [done..|by apply count_all|done].
Qed.

Lemma step_accounting_witness :
  ∃ s' p, next_step (mkSimulation (mkForest 3 grid_center_fire) 0) = Ok (s', p) ∧
    let g := grid_center_fire in
    let g' := grid (forest s') in
    let N := Z.to_nat 3 in
    count EMPTY g' = count EMPTY g ∧
    count ASHES g' = (count ASHES g + count FIRE g)%nat ∧
    (count TREE g' + count FIRE g')%nat = count TREE g ∧
    (count EMPTY g' + count TREE g' + count FIRE g' + count ASHES g' = N * N)%nat ∧
    p = mkChartPoint (0 + 1) (count TREE g') (count ASHES g').
Proof.
  exact (step_accounting (mkSimulation (mkForest 3 grid_center_fire) 0)
           wf_center_fire).
Defined.

(** ** Several steps *)

Lemma steps_state (k : nat) (s : Simulation) :
  wf (forest s) →
  ∃ s', steps k s = Ok s' ∧ wf (forest s') ∧
        size (forest s') = size (forest s) ∧
        time_step s' = time_step s + Z.of_nat k.
Proof.
  revert s. induction k as [|k IH]; intros s Hwf.
  - exists s. split_and!; [done..|lia].
  - destruct (next_step_transition s Hwf) as (s1 & p1 & Hs1 & Hwf1 & Hsz1 & Ht1 & _).
    destruct (IH s1 Hwf1) as (s' & Hs' & Hwf' & Hsz' & Ht').
    exists s'. rewrite steps_S, Hs1, Ok_bind. split_and!; [done..|congruence|lia].
Qed.

(** The step from time [k] to time [k + 1]. *)
Lemma steps_last (k : nat) (s sk sk' : Simulation) :
  wf (forest s) → steps k s = Ok sk → steps (S k) s = Ok sk' →
  wf (forest sk) ∧
  ∀ i j, cell (grid (forest sk')) i j = transition (grid (forest sk)) i j.
Proof.
  intros Hwf Hk HSk.
  destruct (steps_state k s Hwf) as (sk0 & Hk0 & Hwfk & _).
  rewrite Hk in Hk0. injection Hk0 as <-. split; [done|].
  destruct (next_step_transition sk Hwfk) as (s1 & p1 & Hs1 & _ & _ & _ & Hc).
  replace (S k) with (k + 1)%nat in HSk by lia.
  rewrite steps_add, Hk, Ok_bind in HSk. simpl in HSk. rewrite Hs1 in HSk.
  simpl in HSk. by injection HSk as <-.
Qed.

(** X4: the clock counts the steps.  A new simulation starts at time 0, and
    after k steps, none of which raises, its time is k and the size of its
    forest is unchanged. *)
Theorem clock_counts_steps (f : Forest) (k : nat) :
  wf f →
  ∃ s', steps k (Simulation_init f) = Ok s' ∧
        time_step s' = Z.of_nat k ∧ size (forest s') = size f ∧ wf (forest s').
Proof.
  intros Hwf. destruct (steps_state k (Simulation_init f) Hwf)
    as (s' & Hs' & Hwf' & Hsz & Ht).
  exists s'. split_and!; try done; simpl in Ht; lia.
Qed.

Lemma clock_counts_steps_witness :
  ∃ s', steps 5 (Simulation_init (mkForest 3 grid_center_fire)) = Ok s' ∧
        time_step s' = Z.of_nat 5 ∧ size (forest s') = 3 ∧ wf (forest s').
Proof.
  exact (clock_counts_steps (mkForest 3 grid_center_fire) 5 wf_center_fire).
Defined.

(** X5: over any number of steps the number of Empty cells is constant, the
    number of cells that are Tree, Fire or Ash is constant, the number of
    trees never grows and the number of ash cells never shrinks. *)
Theorem steps_conserve_counts (s : Simulation) (k : nat) :
  wf (forest s) →
  ∃ s', steps k s = Ok s' ∧
    let g := grid (forest s) in
    let g' := grid (forest s') in
    count EMPTY g' = count EMPTY g ∧
    (count TREE g' + count FIRE g' + count ASHES g'
     = count TREE g + count FIRE g + count ASHES g)%nat ∧
    (count TREE g' ≤ count TREE g)%nat ∧
    (count ASHES g ≤ count ASHES g')%nat.
Proof.
  revert s. induction k as [|k IH]; intros s Hwf.
  - exists s. simpl. split_and!; done.
  - destruct (next_step_transition s Hwf) as (s1 & p1 & Hs1 & Hwf1 & _).
    destruct (step_counts _ _ _ Hwf Hs1) as (H1 & H2 & H3).
    destruct (IH s1 Hwf1) as (s' & Hs' & H1' & H2' & H3' & H4').
    exists s'. rewrite steps_S, Hs1, Ok_bind. simpl in *.
    split_and!; [done|lia..].
Qed.

Lemma steps_conserve_counts_witness :
  ∃ s', steps 2 (mkSimulation (mkForest 3 grid_corner_fire) 0) = Ok s' ∧
    let g := grid_corner_fire in
    let g' := grid (forest s') in
    count EMPTY g' = count EMPTY g ∧
    (count TREE g' + count FIRE g' + count ASHES g'
     = count TREE g + count FIRE g + count ASHES g)%nat ∧
    (count TREE g' ≤ count TREE g)%nat ∧
    (count ASHES g ≤ count ASHES g')%nat.
Proof.
  exact (steps_conserve_counts (mkSimulation (mkForest 3 grid_corner_fire) 0) 2
           wf_corner_fire).
Defined.

(** X6: what stepping never undoes.  After any number k of steps an Ash cell
    is Ash, a cell is Empty exactly when it was Empty, a cell that is a Tree
    was a Tree all along, and a cell that was Fire is Ash as soon as
    k >= 1. *)
Theorem steps_absorbing (s : Simulation) (k : nat) :
  wf (forest s) →
  ∃ s', steps k s = Ok s' ∧
    ∀ i j,
      let c := cell (grid (forest s)) i j in
      let c' := cell (grid (forest s')) i j in
      (c = Some ASHES → c' = Some ASHES) ∧
      (c = Some EMPTY ↔ c' = Some EMPTY) ∧
      (c' = Some TREE → c = Some TREE) ∧
      (c = Some FIRE → (0 < k)%nat → c' = Some ASHES).
Proof.
  revert s. induction k as [|k IH]; intros s Hwf.
  - exists s. split; [done|]. intros i j. simpl. split_and!; try done. lia.
  - destruct (next_step_transition s Hwf) as (s1 & p1 & Hs1 & Hwf1 & _ & _ & Hc).
    destruct (IH s1 Hwf1) as (s' & Hs' & Hk).
    exists s'. rewrite steps_S, Hs1, Ok_bind. split; [done|].
    intros i j. specialize (Hk i j). simpl in *. rewrite Hc in Hk.
    destruct Hk as (Ha & He & Ht & Hf). unfold transition in *.
    destruct (cell (grid (forest s)) i j) as [[]|] eqn:Hij;
      try destruct (burning (grid (forest s)) i j);
      repeat split; intros; simplify_eq; auto; try lia; intuition congruence.
Qed.

Lemma steps_absorbing_witness :
  ∃ s', steps 3 (mkSimulation (mkForest 3 grid_center_fire) 0) = Ok s' ∧
    ∀ i j,
      let c := cell grid_center_fire i j in
      let c' := cell (grid (forest s')) i j in
      (c = Some ASHES → c' = Some ASHES) ∧
      (c = Some EMPTY ↔ c' = Some EMPTY) ∧
      (c' = Some TREE → c = Some TREE) ∧
      (c = Some FIRE → (0 < 3)%nat → c' = Some ASHES).
Proof.
  exact (steps_absorbing (mkSimulation (mkForest 3 grid_center_fire) 0) 3
           wf_center_fire).
Defined.

(** X7: fire advances one cell per step.  A Tree that is more than k moves
    (up, down, left, right) away from every burning cell is still a Tree
    after k steps. *)
Theorem fire_speed_one (s : Simulation) (k : nat) (i j : Z) :
  wf (forest s) →
  cell (grid (forest s)) i j = Some TREE →
  (∀ r c, cell (grid (forest s)) r c = Some FIRE →
          Z.of_nat k < Z.abs (i - r) + Z.abs (j - c)) →
  ∃ s', steps k s = Ok s' ∧ cell (grid (forest s')) i j = Some TREE.
Proof.
  revert s. induction k as [|k IH]; intros s Hwf Ht Hfar; [by exists s|].
  destruct (next_step_transition s Hwf) as (s1 & p1 & Hs1 & Hwf1 & _ & _ & Hc).
  destruct (IH s1 Hwf1) as (s' & Hs' & Ht').
  - rewrite Hc. unfold transition. rewrite Ht.
    destruct (burning (grid (forest s)) i j) eqn:Hb; [|done].
    apply burning_true in Hb as (r & c & Hf & Hd%elem_of_neighbors).
    specialize (Hfar r c Hf). lia.
  - intros r1 c1 Hf1. rewrite Hc in Hf1.
    apply transition_fire in Hf1 as [_ Hb].
    apply burning_true in Hb as (r & c & Hf & Hd%elem_of_neighbors).
    specialize (Hfar r c Hf). lia.
  - exists s'. by rewrite steps_S, Hs1, Ok_bind.
Qed.

Lemma fire_speed_one_witness :
  ∃ s', steps 3 (mkSimulation (mkForest 3 grid_corner_fire) 0) = Ok s' ∧
        cell (grid (forest s')) 2 2 = Some TREE.
Proof.
  apply (fire_speed_one (mkSimulation (mkForest 3 grid_corner_fire) 0) 3 2 2
           wf_corner_fire eq_refl).
  intros r c Hf. simpl in Hf.
  assert (is_Some (cell grid_corner_fire r c)) as Hin by eauto.
  apply (cell_inside 3 _ _ _ (proj2 wf_corner_fire)) in Hin.
  assert (r = 0 ∨ r = 1 ∨ r = 2) as Hr by lia.
  assert (c = 0 ∨ c = 1 ∨ c = 2) as Hc by lia.
  destruct Hr as [->|[->| ->]], Hc as [->|[->| ->]]; (done || lia).
Defined.

(** ** Which trees burn *)

Lemma state_at_steps (s s' : Simulation) (k : nat) (p : Z * Z) :
  steps k s = Ok s' → state_at s k p = cell (grid (forest s')) p.1 p.2.
Proof. unfold state_at. by intros ->. Qed.

(** The states at time [k + 1] are the transition of the grid at time [k]. *)
Lemma state_at_S (s : Simulation) (k : nat) :
  wf (forest s) →
  ∃ gk, (∀ p, state_at s k p = cell gk p.1 p.2) ∧
        (∀ p, state_at s (S k) p = transition gk p.1 p.2).
Proof.
  intros Hwf.
  destruct (steps_state k s Hwf) as (sk & Hk & _).
  destruct (steps_state (S k) s Hwf) as (sk' & HSk & _).
  destruct (steps_last k s sk sk' Hwf Hk HSk) as [_ Hc].
  exists (grid (forest sk)). split; intros p.
  - by apply state_at_steps.
  - rewrite (state_at_steps _ _ _ _ HSk). apply Hc.
Qed.

Lemma state_at_fire_next (s : Simulation) (k : nat) (p : Z * Z) :
  wf (forest s) → state_at s k p = Some FIRE → state_at s (S k) p = Some ASHES.
Proof.
  intros Hwf Hf. destruct (state_at_S s k Hwf) as (gk & Hk & HSk).
  rewrite Hk in Hf. rewrite HSk. unfold transition. by rewrite Hf.
Qed.

Lemma state_at_ashes_next (s : Simulation) (k : nat) (p : Z * Z) :
  wf (forest s) → state_at s k p = Some ASHES → state_at s (S k) p = Some ASHES.
Proof.
  intros Hwf Hf. destruct (state_at_S s k Hwf) as (gk & Hk & HSk).
  rewrite Hk in Hf. rewrite HSk. unfold transition. by rewrite Hf.
Qed.

Lemma state_at_tree_ignites (s : Simulation) (k : nat) (p q : Z * Z) :
  wf (forest s) → state_at s k q = Some TREE → state_at s k p = Some FIRE →
  adjacent p q → state_at s (S k) q = Some FIRE.
Proof.
  intros Hwf Ht Hf Hadj. destruct (state_at_S s k Hwf) as (gk & Hk & HSk).
  rewrite Hk in Ht, Hf. rewrite HSk. apply transition_fire. split; [done|].
  apply burning_true. by exists p.1, p.2.
Qed.

(** Where the state at time [k + 1] comes from. *)
Lemma state_at_S_inv (s : Simulation) (k : nat) (q : Z * Z) :
  wf (forest s) →
  (state_at s (S k) q = Some TREE → state_at s k q = Some TREE) ∧
  (state_at s (S k) q = Some ASHES →
   state_at s k q = Some FIRE ∨ state_at s k q = Some ASHES) ∧
  (state_at s (S k) q = Some FIRE →
   state_at s k q = Some TREE ∧
   ∃ p, state_at s k p = Some FIRE ∧ adjacent p q).
Proof.
  intros Hwf. destruct (state_at_S s k Hwf) as (gk & Hk & HSk).
  rewrite HSk, Hk. split_and!.
  - unfold transition. by destruct (cell gk q.1 q.2) as [[]|].
  - unfold transition. destruct (cell gk q.1 q.2) as [[]|]; try done; auto.
    by destruct (burning gk q.1 q.2).
  - intros [Ht Hb]%transition_fire. split; [done|].
    apply burning_true in Hb as (r & c & Hf & Hd).
    exists (r, c). by rewrite Hk.
Qed.

Lemma state_at_fire_burns_out (s : Simulation) (t m : nat) (p : Z * Z) :
  wf (forest s) → state_at s t p = Some FIRE → (t < m)%nat →
  state_at s m p = Some ASHES.
Proof.
  intros Hwf Hf Hlt. induction m as [|m IH]; [lia|].
  destruct (decide (t = m)) as [->|Hne].
  - by apply state_at_fire_next.
  - apply state_at_ashes_next; [done|]. apply IH. lia.
Qed.

Lemma state_at_tree_before (s : Simulation) (t : nat) (p : Z * Z) :
  wf (forest s) → state_at s t p = Some TREE → state_at s 0 p = Some TREE.
Proof.
  intros Hwf. induction t as [|t IH]; [done|].
  intros Ht. apply IH. by apply (proj1 (state_at_S_inv s t p Hwf)).
Qed.

(** A cell that was a Tree and is Ash has burnt in between. *)
Lemma state_at_ashes_was_fire (s : Simulation) (t : nat) (p : Z * Z) :
  wf (forest s) → state_at s 0 p = Some TREE → state_at s t p = Some ASHES →
  ∃ t', (t' < t)%nat ∧ state_at s t' p = Some FIRE.
Proof.
  intros Hwf H0. induction t as [|t IH]; [congruence|].
  intros Ha'. apply (proj1 (proj2 (state_at_S_inv s t p Hwf))) in Ha' as [Hf|Ha].
  - exists t. split; [lia|done].
  - destruct (IH Ha) as (t' & Hlt & Hf). exists t'. split; [lia|done].
Qed.

Lemma state_at_tree_cases (s : Simulation) (t : nat) (p : Z * Z) :
  wf (forest s) → state_at s 0 p = Some TREE →
  state_at s t p = Some TREE ∨ state_at s t p = Some FIRE ∨
  state_at s t p = Some ASHES.
Proof.
  intros Hwf H0. induction t as [|t IH]; [by left|].
  destruct (state_at_S s t Hwf) as (gk & Hk & HSk). rewrite HSk.
  rewrite Hk in IH. unfold transition.
  destruct IH as [->|[->| ->]]; auto. destruct (burning _ _ _); auto.
Qed.

(** The fire walks along a chain of trees, one cell per step at the least. *)
Lemma fire_walks_chain (s : Simulation) (rest : list (Z * Z)) :
  wf (forest s) →
  ∀ (c target : Z * Z) (T : nat),
    chain (c :: rest) →
    (∀ q, q ∈ rest → state_at s 0 q = Some TREE) →
    last (c :: rest) = Some target →
    (∃ t, (t ≤ T)%nat ∧ state_at s t c = Some FIRE) →
    ∃ t, (t ≤ T + length rest)%nat ∧ state_at s t target = Some FIRE.
Proof.
  intros Hwf. induction rest as [|c1 rest IH]; intros c target T Hch Htrees Hlast Hf.
  - injection Hlast as <-. destruct Hf as (t & Hle & Hf). exists t.
    split; [simpl; lia|done].
  - destruct Hch as [Hadj Hch]. destruct Hf as (t & Hle & Hf).
    rewrite last_cons_cons in Hlast.
    destruct (IH c1 target (S T)) as (t' & Hle' & Hf'); try done.
    + intros q Hq. apply Htrees. by right.
    + assert (state_at s 0 c1 = Some TREE) as H0 by (apply Htrees; by left).
      destruct (state_at_tree_cases s t c1 Hwf H0) as [Ht|[Ht|Ht]].
      * exists (S t). split; [lia|]. by apply (state_at_tree_ignites s t c c1).
      * exists t. split; [lia|done].
      * destruct (state_at_ashes_was_fire s t c1 Hwf H0 Ht) as (t1 & Hlt & Hf1).
        exists t1. split; [lia|done].
    + exists t'. split; [simpl; lia|done].
Qed.

Lemma chain_snoc (l : list (Z * Z)) (p q : Z * Z) :
  chain l → last l = Some p → adjacent p q → chain (l ++ [q]).
Proof.
  induction l as [|a l IH]; [done|]. intros [Ha Hch] Hlast Hadj.
  destruct l as [|b l].
  - injection Hlast as ->. by repeat split.
  - rewrite last_cons_cons in Hlast. split; [done|]. by apply IH.
Qed.

(** X8: fire reaches every tree connected to it.  If a chain of adjacent
    cells leads from a burning cell to a target through d trees, the target
    being the last of them, the target is Ash after every number m > d of
    steps. *)
Theorem fire_burns_connected_trees
    (s : Simulation) (c0 target : Z * Z) (path : list (Z * Z)) (m : nat) :
  wf (forest s) →
  cell (grid (forest s)) c0.1 c0.2 = Some FIRE →
  chain (c0 :: path) →
  (∀ q, q ∈ path → cell (grid (forest s)) q.1 q.2 = Some TREE) →
  last (c0 :: path) = Some target →
  (length path < m)%nat →
  ∃ s', steps m s = Ok s' ∧ cell (grid (forest s')) target.1 target.2 = Some ASHES.
Proof.
  intros Hwf Hf Hch Htrees Hlast Hm.
  destruct (fire_walks_chain s path Hwf c0 target 0 Hch) as (t & Hle & Ht);
    [done|done|by exists 0%nat|].
  destruct (steps_state m s Hwf) as (s' & Hs' & _). exists s'. split; [done|].
  rewrite <- (state_at_steps _ _ _ _ Hs').
  apply (state_at_fire_burns_out s t m target Hwf Ht). lia.
Qed.

Lemma fire_burns_connected_trees_witness :
  ∃ s', steps 5 (mkSimulation (mkForest 3 grid_corner_fire) 0) = Ok s' ∧
        cell (grid (forest s')) 2 2 = Some ASHES.
Proof.
  apply (fire_burns_connected_trees
           (mkSimulation (mkForest 3 grid_corner_fire) 0) (0, 0) (2, 2)
           [(0, 1); (1, 1); (1, 2); (2, 2)] 5 wf_corner_fire eq_refl).
  - repeat split; apply elem_of_neighbors; simpl; lia.
  - intros q Hq. repeat (apply elem_of_cons in Hq as [->|Hq]; [reflexivity|]).
    by apply elem_of_nil in Hq.
  - reflexivity.
  - simpl. lia.
Defined.

(** X9: fire reaches only trees connected to it.  A cell that burns after k
    steps is the end of a chain of adjacent cells that starts at a cell
    burning at the start and continues through k cells that were trees. *)
Theorem fire_only_through_trees (s s' : Simulation) (k : nat) (target : Z * Z) :
  wf (forest s) → steps k s = Ok s' →
  cell (grid (forest s')) target.1 target.2 = Some FIRE →
  ∃ c0 path,
    cell (grid (forest s)) c0.1 c0.2 = Some FIRE ∧
    chain (c0 :: path) ∧
    (∀ q, q ∈ path → cell (grid (forest s)) q.1 q.2 = Some TREE) ∧
    last (c0 :: path) = Some target ∧
    length path = k.
Proof.
  intros Hwf Hk Hf. rewrite <- (state_at_steps _ _ _ _ Hk) in Hf. clear s' Hk.
  revert target Hf. induction k as [|k IH]; intros target Hf.
  - exists target, []. split; [exact Hf|]. split; [by split|].
    split; [|done]. intros q Hq. by apply elem_of_nil in Hq.
  - apply (proj2 (proj2 (state_at_S_inv s k target Hwf))) in Hf
      as (Ht & p & Hp & Hadj).
    destruct (IH p Hp) as (c0 & path & Hc0 & Hch & Htrees & Hlast & Hlen).
    exists c0, (path ++ [target]). split_and!; [done| | | |].
    + by apply (chain_snoc (c0 :: path) p target).
    + intros q [Hq|Hq%list_elem_of_singleton]%elem_of_app; [by apply Htrees|].
      subst q. by apply (state_at_tree_before s k target Hwf).
    + by rewrite app_comm_cons, last_snoc.
    + rewrite length_app. simpl. lia.
Qed.

Lemma fire_only_through_trees_witness :
  ∃ c0 path,
    cell grid_corner_fire c0.1 c0.2 = Some FIRE ∧
    chain (c0 :: path) ∧
    (∀ q, q ∈ path → cell grid_corner_fire q.1 q.2 = Some TREE) ∧
    last (c0 :: path) = Some (1, 1) ∧
    length path = 2%nat.
Proof.
  apply (fire_only_through_trees
           (mkSimulation (mkForest 3 grid_corner_fire) 0)
           (mkSimulation
              (mkForest 3 [[ASHES; ASHES; FIRE]; [ASHES; FIRE; TREE];
                           [FIRE; TREE; TREE]]) 2)
           2 (1, 1) wf_corner_fire); reflexivity.
Defined.

(** ** Coordinate access, composed *)

Lemma get_state_mod (f : Forest) (row col : Z) (s : TileState) :
  wf f → 0 < size f →
  cell (grid f) (row `mod` size f) (col `mod` size f) = Some s →
  get_state f row col = Ok s.
Proof.
  intros Hwf Hpos Hs. unfold get_state, py_mod.
  rewrite !decide_False by lia. rewrite !Ok_bind. by apply np_getitem_cell.
Qed.

Lemma set_state_cells (f : Forest) (row col : Z) (v : TileState) :
  wf f → 0 < size f →
  ∃ f', set_state f row col v = Ok f' ∧ wf f' ∧ size f' = size f ∧
        ∀ i j, cell (grid f') i j =
               if decide (i = row `mod` size f ∧ j = col `mod` size f)
               then Some v else cell (grid f) i j.
Proof.
  intros [Hsz Hsh] Hpos.
  pose proof (Z.mod_pos_bound row _ Hpos) as Hr.
  pose proof (Z.mod_pos_bound col _ Hpos) as Hc.
  destruct (np_setitem_cell (grid f) (row `mod` size f) (col `mod` size f) v)
    as (g' & Hg' & Hsh' & Hcell).
  { apply (cell_inside _ _ _ _ Hsh). lia. }
  exists (mkForest (size f) g'). unfold set_state, py_mod.
  rewrite !decide_False by lia. rewrite !Ok_bind, Hg', Ok_bind.
  split_and!; [done| |done|done]. split; [done|]. by apply Hsh'.
Qed.

(** X10: [set_state] followed by [get_state].  On a forest of size N > 0,
    after [set_state(row, col, v)] a [get_state(row', col')] returns [v] when
    row' and col' are congruent to row and col modulo N, and otherwise what
    it returned before the write. *)
Theorem set_state_then_get_state (f : Forest) (row col row' col' : Z) (v : TileState) :
  wf f → 0 < size f →
  ∃ f', set_state f row col v = Ok f' ∧
        get_state f' row' col' =
        if decide (row' `mod` size f = row `mod` size f ∧
                   col' `mod` size f = col `mod` size f)
        then Ok v else get_state f row' col'.
Proof.
  intros Hwf Hpos.
  destruct (set_state_cells f row col v Hwf Hpos) as (f' & Hf' & Hwf' & Hsz & Hc).
  exists f'. split; [done|].
  pose proof (Z.mod_pos_bound row' _ Hpos) as Hr.
  pose proof (Z.mod_pos_bound col' _ Hpos) as Hcb.
  assert (is_Some (cell (grid f) (row' `mod` size f) (col' `mod` size f)))
    as [s Hs].
  { apply (cell_inside _ _ _ _ (proj2 Hwf)). lia. }
  rewrite (get_state_mod f row' col' s Hwf Hpos Hs).
  destruct (decide (row' `mod` size f = row `mod` size f ∧
                    col' `mod` size f = col `mod` size f)) as [Heq|Hne];
    (apply get_state_mod; [done|lia|]); rewrite Hsz, Hc.
  - by rewrite decide_True.
  - by rewrite decide_False.
Qed.

Lemma set_state_then_get_state_witness :
  let f := mkForest 3 grid_corner_fire in
  ∃ f', set_state f (-1) 4 ASHES = Ok f' ∧
        get_state f' 5 (-2) =
        if decide (5 `mod` size f = (-1) `mod` size f ∧
                   (-2) `mod` size f = 4 `mod` size f)
        then Ok ASHES else get_state f 5 (-2).
Proof.
  apply (set_state_then_get_state (mkForest 3 grid_corner_fire) (-1) 4 5 (-2)
           ASHES wf_corner_fire).
  simpl. lia.
Defined.

Section Seeding.

Variable alloc : Z → allocation.
Variable shuffle : list (Z * Z) → list (Z * Z).
Variable choice : nat → nat.
Hypothesis shuffle_perm : ∀ l, shuffle l ≡ₚ l.
Hypothesis choice_lt : ∀ n, (0 < n)%nat → (choice n < n)%nat.

(** X11: the forest of size 0.  [Forest(0)] is constructed without error; on
    it [get_state] and [set_state] raise ZeroDivisionError for every
    argument, while [plant_trees], [ignite_tree] and [next_step] raise
    nothing and leave it as it is, and it has no fire. *)
Theorem empty_forest_behaviour (f : Forest) (row col num_trees t : Z) (v : TileState) :
  Forest_init alloc 0 = Ok f →
  get_state f row col = Raise ZeroDivisionError ∧
  set_state f row col v = Raise ZeroDivisionError ∧
  plant_trees shuffle num_trees f = Ok f ∧
  ignite_tree choice f = Ok f ∧
  next_step (mkSimulation f t) = Ok (mkSimulation f (t + 1), mkChartPoint (t + 1) 0 0) ∧
  has_fire (mkSimulation f t) = false.
Proof using shuffle_perm.
  intros [= <-]. split_and!; try reflexivity.
  unfold plant_trees. simpl size.
  assert (shuffle (available_positions 0) = []) as ->; [|done].
  apply Permutation_nil_r. rewrite shuffle_perm. by vm_compute.
Qed.

Lemma fresh_plant_counts (N num_trees : Z) (f : Forest) :
  Forest_init alloc N = Ok f → 0 ≤ num_trees ≤ N * N →
  ∃ f', plant_trees shuffle num_trees f = Ok f' ∧ wf f' ∧ size f' = N ∧
        Z.of_nat (count TREE (grid f')) = num_trees ∧
        Z.of_nat (count EMPTY (grid f')) = N * N - num_trees ∧
        count FIRE (grid f') = 0%nat ∧ count ASHES (grid f') = 0%nat.
Proof using shuffle_perm.
  intros Hinit Hz. apply Forest_init_Ok in Hinit as [HN ->].
  set (f := mkForest N (replicate (Z.to_nat N) (replicate (Z.to_nat N) EMPTY))).
  assert (wf f) as Hwf. { split; [simpl; lia|apply shape_replicate]. }
  assert (∀ i j s, cell (grid f) i j = Some s → s = EMPTY) as Hempty.
  { intros i j s Hs. assert (is_Some (cell (grid f) i j)) as Hin by eauto.
    apply (cell_inside _ _ _ _ (proj2 Hwf)) in Hin. simpl in Hin.
    simpl in Hs. rewrite cell_replicate in Hs by lia. congruence. }
  assert (count TREE (grid f) = 0%nat) as Hzero.
  { destruct (decide (0 < count TREE (grid f))%nat) as [Hpos|]; [|lia].
    apply count_pos_cell in Hpos as (i & j & Ht). by apply Hempty in Ht. }
  destruct (plant_trees_spec shuffle shuffle_perm num_trees f Hwf)
    as (f' & Hf' & Hsz & Hwf' & Hc & Hcount).
  assert (∀ i j, cell (grid f) i j ≠ Some TREE) as Hnt.
  { intros i j Ht. by apply Hempty in Ht. }
  specialize (Hcount Hnt). rewrite Hzero in Hcount.
  destruct (planted_facts shuffle shuffle_perm N num_trees) as (_ & Hlen & _);
    [lia|].
  change (size f) with N in Hcount, Hc, Hsz.
  assert (∀ i j s, cell (grid f') i j = Some s → s = TREE ∨ s = EMPTY) as Hte.
  { intros i j s. rewrite Hc. case_decide; [intros [= <-]; by left|].
    intros Hs%Hempty. by right. }
  assert (∀ s, s ≠ TREE → s ≠ EMPTY → count s (grid f') = 0%nat) as Hnone.
  { intros s H1 H2. destruct (decide (0 < count s (grid f'))%nat) as [Hpos|]; [|lia].
    apply count_pos_cell in Hpos as (i & j & Hs). by destruct (Hte _ _ _ Hs). }
  assert (Z.of_nat (count TREE (grid f')) = num_trees) as Htree.
  { rewrite Hcount, Hlen. lia. }
  exists f'. pose proof (count_all _ _ (proj2 Hwf')) as Hall.
  rewrite Hsz in Hall. rewrite (Hnone FIRE), (Hnone ASHES) in Hall by done.
  split_and!; try done; [nia|by apply Hnone..].
Qed.

(** X12: seeding and ignition together.  After [Forest(N)], then
    [plant_trees(Z)] with 1 <= Z <= N^2, then [ignite_tree()], exactly one
    cell is Fire, Z - 1 cells are Tree, N^2 - Z cells are Empty, no cell is
    Ash, and [has_fire] holds of a simulation of that forest. *)
Theorem seed_then_ignite (N num_trees : Z) (f : Forest) :
  Forest_init alloc N = Ok f → 1 ≤ num_trees ≤ N * N →
  ∃ f1 f2,
    plant_trees shuffle num_trees f = Ok f1 ∧
    ignite_tree choice f1 = Ok f2 ∧
    count FIRE (grid f2) = 1%nat ∧
    Z.of_nat (count TREE (grid f2)) = num_trees - 1 ∧
    Z.of_nat (count EMPTY (grid f2)) = N * N - num_trees ∧
    count ASHES (grid f2) = 0%nat ∧
    has_fire (Simulation_init f2) = true.
Proof using shuffle_perm choice_lt.
  intros Hinit Hz.
  destruct (fresh_plant_counts N num_trees f Hinit) as
    (f1 & Hf1 & Hwf1 & Hsz1 & Ht1 & He1 & Hfi1 & Ha1); [lia|].
  destruct (ignite_tree_spec choice choice_lt f1) as (f2 & Hf2 & _ & _ & Hcases).
  exists f1, f2. split; [done|]. split; [done|].
  destruct Hcases as [[Hzero _]|[_ (r & c & Ht & Hset & _)]]; [lia|].
  pose proof (np_setitem_total _ _ _ _ _ _ (indicator FIRE) Ht Hset) as HF.
  pose proof (np_setitem_total _ _ _ _ _ _ (indicator TREE) Ht Hset) as HT.
  pose proof (np_setitem_total _ _ _ _ _ _ (indicator EMPTY) Ht Hset) as HE.
  pose proof (np_setitem_total _ _ _ _ _ _ (indicator ASHES) Ht Hset) as HA.
  rewrite <- !count_total in HF, HT, HE, HA.
  vm_compute indicator in HF, HT, HE, HA.
  assert (count FIRE (grid f2) = 1%nat) as Hone by lia.
  split_and!; [done|lia..|].
  apply has_fire_count. simpl. lia.
Qed.

(** X13: reseeding a whole grid.  On any forest, burning or burnt,
    [plant_trees(Z)] with Z >= N^2 makes every cell a Tree, so that no fire
    is left. *)
Theorem plant_everywhere_overwrites (num_trees : Z) (f : Forest) :
  wf f → size f * size f ≤ num_trees →
  ∃ f', plant_trees shuffle num_trees f = Ok f' ∧
        (∀ i j, 0 ≤ i < size f → 0 ≤ j < size f →
                cell (grid f') i j = Some TREE) ∧
        Z.of_nat (count TREE (grid f')) = size f * size f ∧
        has_fire (Simulation_init f') = false.
Proof using shuffle_perm.
  intros Hwf Hz.
  destruct (plant_trees_spec shuffle shuffle_perm num_trees f Hwf)
    as (f' & Hf' & Hsz & Hwf' & Hc & _).
  assert (∀ i j s, cell (grid f') i j = Some s → s = TREE) as Hall.
  { intros i j s Hs. assert (is_Some (cell (grid f') i j)) as Hin by eauto.
    apply (cell_inside _ _ _ _ (proj2 Hwf')) in Hin. rewrite Hsz in Hin.
    rewrite Hc in Hs. rewrite decide_True in Hs; [congruence|].
    unfold planted. rewrite take_ge.
    - rewrite shuffle_perm. apply elem_of_available_positions. lia.
    - rewrite shuffle_perm, length_available_positions. destruct Hwf. nia. }
  assert (∀ s, s ≠ TREE → count s (grid f') = 0%nat) as Hnone.
  { intros s Hs. destruct (decide (0 < count s (grid f'))%nat) as [Hpos|]; [|lia].
    apply count_pos_cell in Hpos as (i & j & Hij). by apply Hall in Hij. }
  exists f'. split; [done|]. split_and!.
  - intros i j Hi Hj.
    assert (is_Some (cell (grid f') i j)) as [s Hs].
    { apply (cell_inside _ _ _ _ (proj2 Hwf')). rewrite Hsz. destruct Hwf. lia. }
    by rewrite Hs, (Hall _ _ _ Hs).
  - pose proof (count_all _ _ (proj2 Hwf')) as Hsum. rewrite Hsz in Hsum.
    rewrite (Hnone EMPTY), (Hnone FIRE), (Hnone ASHES) in Hsum by done.
    destruct Hwf. nia.
  - apply not_true_iff_false. intros Hf%has_fire_count. simpl in Hf.
    rewrite Hnone in Hf by done. lia.
Qed.

End Seeding.

Lemma empty_forest_behaviour_witness :
  let f := mkForest 0 [] in
  get_state f 2 (-3) = Raise ZeroDivisionError ∧
  set_state f 2 (-3) TREE = Raise ZeroDivisionError ∧
  plant_trees reverse 4 f = Ok f ∧
  ignite_tree Nat.pred f = Ok f ∧
  next_step (mkSimulation f 7) = Ok (mkSimulation f (7 + 1), mkChartPoint (7 + 1) 0 0) ∧
  has_fire (mkSimulation f 7) = false.
Proof.
  exact (empty_forest_behaviour alloc_example reverse Nat.pred
           (@reverse_Permutation _) (mkForest 0 []) 2 (-3) 4 7 TREE eq_refl).
Defined.

Lemma seed_then_ignite_witness :
  ∃ f1 f2,
    plant_trees reverse 3 (mkForest 2 [[EMPTY; EMPTY]; [EMPTY; EMPTY]]) = Ok f1 ∧
    ignite_tree Nat.pred f1 = Ok f2 ∧
    count FIRE (grid f2) = 1%nat ∧
    Z.of_nat (count TREE (grid f2)) = 3 - 1 ∧
    Z.of_nat (count EMPTY (grid f2)) = 2 * 2 - 3 ∧
    count ASHES (grid f2) = 0%nat ∧
    has_fire (Simulation_init f2) = true.
Proof.
  apply (seed_then_ignite alloc_example reverse Nat.pred
           (@reverse_Permutation _) last_index_lt 2 3); [reflexivity|lia].
Defined.

Lemma plant_everywhere_witness :
  let f := mkForest 3 grid_center_fire in
  ∃ f', plant_trees reverse 9 f = Ok f' ∧
        (∀ i j, 0 ≤ i < size f → 0 ≤ j < size f →
                cell (grid f') i j = Some TREE) ∧
        Z.of_nat (count TREE (grid f')) = size f * size f ∧
        has_fire (Simulation_init f') = false.
Proof.
  apply (plant_everywhere_overwrites reverse (@reverse_Permutation _) 9
           (mkForest 3 grid_center_fire) wf_center_fire).
  simpl. lia.
Defined.

(** ** The chart follows the steps *)

Lemma history_spec (k : nat) (s : Simulation) :
  wf (forest s) →
  length (history k s) = k ∧
  ∀ i, (i < k)%nat →
    ∃ si, steps (S i) s = Ok si ∧
          history k s !! i =
          Some (mkChartPoint (time_step s + Z.of_nat (S i))
                  (count TREE (grid (forest si)))
                  (count ASHES (grid (forest si)))).
Proof.
  revert s. induction k as [|k IH]; intros s Hwf; [split; [done|lia]|].
  destruct (next_step_result s Hwf) as (g1 & Hs1 & Hsh1 & _).
  set (s1 := mkSimulation (mkForest (size (forest s)) g1) (time_step s + 1)) in *.
  assert (wf (forest s1)) as Hwf1 by (split; [apply Hwf|done]).
  destruct (IH s1 Hwf1) as [Hlen Hpts].
  assert (history (S k) s =
          mkChartPoint (time_step s + 1) (count TREE g1) (count ASHES g1)
          :: history k s1) as ->.
  { simpl. by rewrite Hs1. }
  split; [simpl; by rewrite Hlen|].
  intros [|i] Hi.
  - exists s1. split; [by rewrite steps_S, Hs1|done].
  - destruct (Hpts i) as (si & Hsi & Hp); [lia|].
    exists si. split; [by rewrite steps_S, Hs1, Ok_bind|].
    rewrite lookup_cons_ne_0 by done. simpl pred. rewrite Hp.
    do 2 f_equal. simpl time_step. lia.
Qed.

Lemma steps_chart_spec (k : nat) (s : Simulation) :
  wf (forest s) →
  ∃ s', steps k s = Ok s' ∧
        steps_chart k (s, None) = Ok (s', None) ∧
        ∀ c, steps_chart k (s, Some c) =
             Ok (s', Some (mkChart
                             (labels c ++ (cp_time_step <$> history k s))
                             (trees_left c ++ (cp_total_trees <$> history k s))
                             (trees_burned c ++ (cp_total_ashes <$> history k s))
                             (redraws c + k))).
Proof.
  revert s. induction k as [|k IH]; intros s Hwf.
  - exists s. split_and!; [done..|]. intros [l1 l2 l3 n]. simpl.
    by rewrite !app_nil_r, Nat.add_0_r.
  - destruct (next_step_transition s Hwf) as (s1 & p1 & Hs1 & Hwf1 & _).
    destruct (IH s1 Hwf1) as (s' & Hs' & Hnone & Hsome).
    exists s'. split_and!.
    + by rewrite steps_S, Hs1, Ok_bind.
    + simpl. unfold next_step_chart. simpl. by rewrite Hs1, !Ok_bind.
    + intros c.
      assert (history (S k) s = p1 :: history k s1) as ->.
      { simpl. by rewrite Hs1. }
      cbn [steps_chart]. unfold next_step_chart. cbn [fst snd].
      rewrite Hs1, !Ok_bind. cbn [update_chart]. rewrite Hsome.
      cbn [labels trees_left trees_burned redraws].
      by rewrite !fmap_cons, <- !app_assoc, Nat.add_succ_r.
Qed.

(** X14: the chart follows the steps.  k calls of [next_step] on a chart
    append to its labels and to its two datasets one value per step, in
    order: the times t+1, ..., t+k and the numbers of Tree and of Ash cells
    of the grid after that step; the chart is redrawn k times, and the
    simulation ends in the state that k steps give.  While no chart exists
    none is created. *)
Theorem chart_follows_steps (s : Simulation) (c : Chart) (k : nat) :
  wf (forest s) →
  ∃ s' points,
    steps k s = Ok s' ∧
    steps_chart k (s, None) = Ok (s', None) ∧
    steps_chart k (s, Some c) =
      Ok (s', Some (mkChart (labels c ++ (cp_time_step <$> points))
                            (trees_left c ++ (cp_total_trees <$> points))
                            (trees_burned c ++ (cp_total_ashes <$> points))
                            (redraws c + k))) ∧
    length points = k ∧
    ∀ i, (i < k)%nat →
      ∃ si, steps (S i) s = Ok si ∧
            points !! i =
            Some (mkChartPoint (time_step s + Z.of_nat (S i))
                    (count TREE (grid (forest si)))
                    (count ASHES (grid (forest si)))).
Proof.
  intros Hwf. destruct (steps_chart_spec k s Hwf) as (s' & Hs' & Hnone & Hsome).
  destruct (history_spec k s Hwf) as [Hlen Hpts].
  exists s', (history k s). by split_and!.
Qed.

Lemma chart_follows_steps_witness :
  let s := mkSimulation (mkForest 3 grid_center_fire) 0 in
  let c := mkChart [] [] [] 0 in
  ∃ s' points,
    steps 2 s = Ok s' ∧
    steps_chart 2 (s, None) = Ok (s', None) ∧
    steps_chart 2 (s, Some c) =
      Ok (s', Some (mkChart (labels c ++ (cp_time_step <$> points))
                            (trees_left c ++ (cp_total_trees <$> points))
                            (trees_burned c ++ (cp_total_ashes <$> points))
                            (redraws c + 2))) ∧
    length points = 2%nat ∧
    ∀ i, (i < 2)%nat →
      ∃ si, steps (S i) s = Ok si ∧
            points !! i =
            Some (mkChartPoint (time_step s + Z.of_nat (S i))
                    (count TREE (grid (forest si)))
                    (count ASHES (grid (forest si)))).
Proof.
  exact (chart_follows_steps (mkSimulation (mkForest 3 grid_center_fire) 0)
           (mkChart [] [] [] 0) 2 wf_center_fire).
Defined.

(** ** Drawing *)

Lemma list_bind_nil {A B} (h : A → list B) : [] ≫= h = [].
Proof. reflexivity. Qed.

(** X15: the four states are drawn in four different colors. *)
Theorem color_of_distinguishes_states (s1 s2 : TileState) :
  color_of s1 = color_of s2 → s1 = s2.
Proof. by destruct s1, s2. Qed.

Lemma color_of_distinguishes_witness : FIRE = FIRE.
Proof. exact (color_of_distinguishes_states FIRE FIRE eq_refl). Defined.

Section Drawing.

Variable number : Type.
Variable width : number.
Variable truediv : number → Z → number.
Variable times : Z → number → number.

Variable f : Forest.
Hypothesis f_wf : wf f.

Let cell_size : number := truediv width (size f).

Lemma draw_cell_spec (row col : Z) (canvas : list (FillRect number)) :
  0 ≤ row < size f → 0 ≤ col < size f →
  ∃ op, draw_cell number times f cell_size row canvas col = Ok (canvas ++ [op]) ∧
        paints number width truediv times f (row, col) op.
Proof using f_wf.
  intros Hrow Hcol.
  assert (is_Some (cell (grid f) row col)) as [s Hs].
  { apply (cell_inside _ _ _ _ (proj2 f_wf)). lia. }
  eexists. unfold draw_cell. rewrite (get_state_cell f row col s f_wf Hs), Ok_bind.
  split; [done|]. by exists s.
Qed.

Lemma draw_row_spec (row : Z) (canvas : list (FillRect number)) :
  0 ≤ row < size f →
  ∃ new, for_each (draw_cell number times f cell_size row) (py_range (size f)) canvas
         = Ok (canvas ++ new) ∧
         Forall2 (paints number width truediv times f) (c ← py_range (size f); [(row, c)]) new.
Proof using f_wf.
  intros Hrow.
  destruct (for_each_inv
    (λ dc cv, ∃ new, cv = canvas ++ new ∧ Forall2 (paints number width truediv times f) (c ← dc; [(row, c)]) new)
    (draw_cell number times f cell_size row) (py_range (size f)) canvas)
    as (cv & Hcv & new & -> & Hnew).
  - exists []. by rewrite app_nil_r.
  - intros dc col cv Hcol (new & -> & Hnew). apply elem_of_seqZ in Hcol.
    destruct (draw_cell_spec row col (canvas ++ new)) as (op & Hop & Hp); [lia..|].
    exists ((canvas ++ new) ++ [op]). split; [done|]. exists (new ++ [op]).
    split; [by rewrite app_assoc|]. rewrite bind_app. apply Forall2_app; [done|].
    rewrite bind_cons, list_bind_nil. simpl. by repeat constructor.
  - by exists new.
Qed.

(** X16: [draw_grid].  On a forest of size 0 it raises ZeroDivisionError and
    paints nothing.  On a forest of size N > 0 it adds to the canvas exactly
    one rectangle per cell, row by row and within a row column by column,
    each of side [cell_size] = width / N, at x = col * cell_size and
    y = row * cell_size, filled with the color of the state of that cell. *)
Theorem draw_grid_paints_every_cell (canvas : list (FillRect number)) :
  (size f = 0 → draw_grid number width truediv times f canvas
                = Raise ZeroDivisionError) ∧
  (0 < size f →
   ∃ new, draw_grid number width truediv times f canvas = Ok (canvas ++ new) ∧
          Forall2 (paints number width truediv times f) (available_positions (size f)) new ∧
          Z.of_nat (length new) = size f * size f).
Proof using f_wf.
  unfold draw_grid. split; intros Hsz.
  - by rewrite decide_True.
  - rewrite decide_False by lia. rewrite Ok_bind. fold cell_size.
    destruct (for_each_inv
      (λ dr cv, ∃ new, cv = canvas ++ new ∧
                       Forall2 (paints number width truediv times f) (r ← dr; c ← py_range (size f); [(r, c)]) new)
      (λ cv row, for_each (draw_cell number times f cell_size row)
                          (py_range (size f)) cv)
      (py_range (size f)) canvas) as (cv & Hcv & new & -> & Hnew).
    + exists []. by rewrite app_nil_r.
    + intros dr row cv Hrow (new & -> & Hnew). apply elem_of_seqZ in Hrow.
      destruct (draw_row_spec row (canvas ++ new)) as (new' & Hnew' & Hp); [lia|].
      exists ((canvas ++ new) ++ new'). split; [done|]. exists (new ++ new').
      split; [by rewrite app_assoc|]. rewrite bind_app. apply Forall2_app; [done|].
      by rewrite bind_cons, list_bind_nil, app_nil_r.
    + exists new. split; [done|]. split; [done|].
      apply Forall2_length in Hnew. rewrite <- Hnew.
      fold (available_positions (size f)) (py_range (size f)).
      rewrite length_available_positions. lia.
Qed.

End Drawing.

(** The canvas numbers read as integers, for an example. *)
Lemma draw_grid_witness :
  let f := mkForest 3 grid_center_fire in
  (size f = 0 → draw_grid Z 300 Z.div Z.mul f [] = Raise ZeroDivisionError) ∧
  (0 < size f →
   ∃ new, draw_grid Z 300 Z.div Z.mul f [] = Ok ([] ++ new) ∧
          Forall2 (paints Z 300 Z.div Z.mul f) (available_positions (size f)) new ∧
          Z.of_nat (length new) = size f * size f).
Proof.
  exact (draw_grid_paints_every_cell Z 300 Z.div Z.mul
           (mkForest 3 grid_center_fire) wf_center_fire []).
Defined.

(** ** More on the course of a fire *)

Lemma steps_tree_bound (k : nat) (s s' : Simulation) :
  wf (forest s) → steps k s = Ok s' → has_fire s' = true →
  (count TREE (grid (forest s')) + k ≤ count TREE (grid (forest s)))%nat.
Proof.
  revert s. induction k as [|k IH]; intros s Hwf Hk Hf.
  - simpl in Hk. injection Hk as <-. lia.
  - destruct (next_step_transition s Hwf) as (s1 & p1 & Hs1 & Hwf1 & _).
    rewrite steps_S, Hs1, Ok_bind in Hk.
    pose proof (IH s1 Hwf1 Hk Hf) as Hle.
    pose proof (step_potential s s1 p1 Hwf Hs1) as Hpot.
    assert (has_fire s1 = true) as Hf1.
    { apply not_false_iff_true. intros Hnf.
      pose proof (no_fire_stays k s1 s' Hwf1 Hnf Hk). congruence. }
    apply has_fire_count in Hf1. lia.
Qed.

(** X17: the fire is out after as many steps as there are trees, and one
    more: with T Tree cells at the start, no cell burns after any number
    m > T of steps. *)
Theorem fire_out_after_trees_plus_one (s : Simulation) (m : nat) :
  wf (forest s) → (count TREE (grid (forest s)) < m)%nat →
  ∃ s', steps m s = Ok s' ∧ has_fire s' = false.
Proof.
  intros Hwf Hm. destruct (steps_state m s Hwf) as (s' & Hs' & _).
  exists s'. split; [done|]. apply not_true_iff_false. intros Hf.
  pose proof (steps_tree_bound m s s' Hwf Hs' Hf). lia.
Qed.

Lemma fire_out_after_trees_witness :
  has_fire (mkSimulation (mkForest 3 grid_center_fire) 0) = true ∧
  count TREE grid_center_fire = 8%nat ∧
  ∃ s', steps 9 (mkSimulation (mkForest 3 grid_center_fire) 0) = Ok s' ∧
        has_fire s' = false.
Proof.
  split; [reflexivity|]. split; [reflexivity|].
  apply (fire_out_after_trees_plus_one
           (mkSimulation (mkForest 3 grid_center_fire) 0) 9 wf_center_fire).
  vm_compute. lia.
Defined.

(** X18: [has_fire] is true exactly when some cell of the grid is Fire. *)
Theorem has_fire_iff_fire_cell (s : Simulation) :
  has_fire s = true ↔ ∃ i j, cell (grid (forest s)) i j = Some FIRE.
Proof. by rewrite has_fire_count, count_pos_cell. Qed.

(** X19: a cell burns at most once.  If a cell is Fire after t steps and
    after t' steps, then t = t'. *)
Theorem cell_burns_once (s s1 s2 : Simulation) (t t' : nat) (i j : Z) :
  wf (forest s) → steps t s = Ok s1 → steps t' s = Ok s2 →
  cell (grid (forest s1)) i j = Some FIRE →
  cell (grid (forest s2)) i j = Some FIRE →
  t = t'.
Proof.
  intros Hwf H1 H2 Hf1 Hf2.
  assert (state_at s t (i, j) = Some FIRE) as Hf1'.
  { by rewrite (state_at_steps _ _ _ _ H1). }
  assert (state_at s t' (i, j) = Some FIRE) as Hf2'.
  { by rewrite (state_at_steps _ _ _ _ H2). }
  destruct (lt_eq_lt_dec t t') as [[Hlt|Heq]|Hgt]; [|done|].
  - pose proof (state_at_fire_burns_out s t t' (i, j) Hwf Hf1' Hlt). congruence.
  - pose proof (state_at_fire_burns_out s t' t (i, j) Hwf Hf2' Hgt). congruence.
Qed.

Lemma cell_burns_once_witness : 1%nat = 1%nat.
Proof.
  apply (cell_burns_once
           (mkSimulation (mkForest 3 grid_center_fire) 0)
           (mkSimulation
              (mkForest 3 [[TREE; FIRE; TREE]; [FIRE; ASHES; FIRE];
                           [TREE; FIRE; TREE]]) 1)
           (mkSimulation
              (mkForest 3 [[TREE; FIRE; TREE]; [FIRE; ASHES; FIRE];
                           [TREE; FIRE; TREE]]) 1)
           1 1 0 1 wf_center_fire); reflexivity.
Defined.

(** X20: the fire takes the shortest way.  If a cell is Fire after k steps,
    no chain of adjacent cells from a cell burning at the start through
    trees to that cell has fewer than k trees. *)
Theorem fire_takes_shortest_way
    (s s' : Simulation) (k : nat) (c0 target : Z * Z) (path : list (Z * Z)) :
  wf (forest s) → steps k s = Ok s' →
  cell (grid (forest s')) target.1 target.2 = Some FIRE →
  cell (grid (forest s)) c0.1 c0.2 = Some FIRE →
  chain (c0 :: path) →
  (∀ q, q ∈ path → cell (grid (forest s)) q.1 q.2 = Some TREE) →
  last (c0 :: path) = Some target →
  (k ≤ length path)%nat.
Proof.
  intros Hwf Hk Hf Hc0 Hch Htrees Hlast.
  rewrite <- (state_at_steps _ _ _ _ Hk) in Hf.
  destruct (fire_walks_chain s path Hwf c0 target 0 Hch) as (t & Hle & Ht);
    [done|done|by exists 0%nat|].
  destruct (decide (t < k)%nat) as [Hlt|]; [|lia].
  pose proof (state_at_fire_burns_out s t k target Hwf Ht Hlt). congruence.
Qed.

Lemma fire_takes_shortest_way_witness : (2 ≤ length [(0, 1); (1, 1)])%nat.
Proof.
  apply (fire_takes_shortest_way
           (mkSimulation (mkForest 3 grid_corner_fire) 0)
           (mkSimulation
              (mkForest 3 [[ASHES; ASHES; FIRE]; [ASHES; FIRE; TREE];
                           [FIRE; TREE; TREE]]) 2)
           2 (0, 0) (1, 1) [(0, 1); (1, 1)] wf_corner_fire);
    try reflexivity.
  - repeat split; apply elem_of_neighbors; simpl; lia.
  - intros q Hq. repeat (apply elem_of_cons in Hq as [->|Hq]; [reflexivity|]).
    by apply elem_of_nil in Hq.
Defined.

(** ** Seeding never removes a tree *)

Lemma plant_loop_bounds (num_trees : Z) (ps : list (Z * Z)) :
  ∀ (i : Z) (g g' : Grid),
    (∀ p, p ∈ ps → is_Some (cell g p.1 p.2)) →
    plant_loop num_trees i ps g = Ok g' →
    (count TREE g ≤ count TREE g'
     ≤ count TREE g + length (take (Z.to_nat (num_trees - i)) ps))%nat.
Proof.
  induction ps as [|[row col] ps IH]; intros i g g' Hin Hloop.
  - simpl in Hloop. injection Hloop as <-. rewrite take_nil. simpl. lia.
  - simpl in Hloop. case_decide as Hi.
    + injection Hloop as <-. lia.
    + destruct (Hin (row, col)) as [u Hu]; [by left|]. simpl in Hu.
      destruct (np_setitem_cell g row col TREE) as (g1 & Hg1 & _ & Hc1); [by eauto|].
      rewrite Hg1, Ok_bind in Hloop.
      pose proof (np_setitem_total g g1 row col u TREE (indicator TREE) Hu Hg1)
        as Ht.
      rewrite <- !count_total in Ht. unfold indicator in Ht.
      rewrite (decide_True (P := TREE = TREE)) in Ht by done.
      specialize (IH (i + 1) g1 g').
      replace (Z.to_nat (num_trees - i))
        with (S (Z.to_nat (num_trees - (i + 1)))) by lia.
      simpl.
      assert (∀ p, p ∈ ps → is_Some (cell g1 p.1 p.2)) as Hin1.
      { intros [r c] Hp. simpl. rewrite Hc1.
        destruct (decide (r = row ∧ c = col)); [done|].
        apply (Hin (r, c)). by right. }
      specialize (IH Hin1 Hloop). destruct (decide (u = TREE)); lia.
Qed.

Section Reseeding.

Variable shuffle : list (Z * Z) → list (Z * Z).
Hypothesis shuffle_perm : ∀ l, shuffle l ≡ₚ l.

(** X21: [plant_trees] only adds trees.  On any forest every cell keeps its
    state or becomes a Tree, so no Tree is lost, and the number of Tree
    cells grows by at most min(Z, N^2), and by nothing when Z <= 0. *)
Theorem plant_trees_only_adds_trees (num_trees : Z) (f : Forest) :
  wf f →
  ∃ f', plant_trees shuffle num_trees f = Ok f' ∧
        (∀ i j, cell (grid f') i j = cell (grid f) i j ∨
                cell (grid f') i j = Some TREE) ∧
        (∀ i j, cell (grid f) i j = Some TREE → cell (grid f') i j = Some TREE) ∧
        (count TREE (grid f) ≤ count TREE (grid f'))%nat ∧
        Z.of_nat (count TREE (grid f')) ≤
        Z.of_nat (count TREE (grid f)) +
        Z.max 0 (Z.min num_trees (size f * size f)).
Proof using shuffle_perm.
  intros Hwf.
  destruct (plant_trees_spec shuffle shuffle_perm num_trees f Hwf)
    as (f' & Hf' & Hsz & Hwf' & Hc & _).
  destruct (planted_facts shuffle shuffle_perm (size f) num_trees)
    as (_ & Hlen & _); [apply Hwf|].
  exists f'. split; [done|]. split_and!.
  - intros i j. rewrite Hc. case_decide; auto.
  - intros i j Ht. rewrite Hc. by case_decide.
  - assert (∃ g', plant_loop num_trees 0
                    (shuffle (available_positions (size f))) (grid f) = Ok g' ∧
                  g' = grid f') as (g' & Hg' & ->).
    { unfold plant_trees in Hf'.
      destruct (plant_loop _ _ _ _) as [g'|]; [|done]. rewrite Ok_bind in Hf'.
      injection Hf' as <-. by exists g'. }
    apply (plant_loop_bounds _ _ _ _ _) in Hg'; [lia|].
    intros [i j] Hp. rewrite shuffle_perm in Hp.
    apply elem_of_available_positions in Hp.
    apply (cell_inside _ _ _ _ (proj2 Hwf)). destruct Hwf. simpl. lia.
  - assert (∃ g', plant_loop num_trees 0
                    (shuffle (available_positions (size f))) (grid f) = Ok g' ∧
                  g' = grid f') as (g' & Hg' & ->).
    { unfold plant_trees in Hf'.
      destruct (plant_loop _ _ _ _) as [g'|]; [|done]. rewrite Ok_bind in Hf'.
      injection Hf' as <-. by exists g'. }
    apply (plant_loop_bounds _ _ _ _ _) in Hg'.
    + rewrite <- (planted_take shuffle shuffle_perm) in Hg' by apply Hwf.
      rewrite Hlen in Hg'. lia.
    + intros [i j] Hp. rewrite shuffle_perm in Hp.
      apply elem_of_available_positions in Hp.
      apply (cell_inside _ _ _ _ (proj2 Hwf)). destruct Hwf. simpl. lia.
Qed.

End Reseeding.

Lemma plant_trees_only_adds_witness :
  let f := mkForest 3 grid_center_fire in
  ∃ f', plant_trees reverse 2 f = Ok f' ∧
        (∀ i j, cell (grid f') i j = cell (grid f) i j ∨
                cell (grid f') i j = Some TREE) ∧
        (∀ i j, cell (grid f) i j = Some TREE → cell (grid f') i j = Some TREE) ∧
        (count TREE (grid f) ≤ count TREE (grid f'))%nat ∧
        Z.of_nat (count TREE (grid f')) ≤
        Z.of_nat (count TREE (grid f)) +
        Z.max 0 (Z.min 2 (size f * size f)).
Proof.
  exact (plant_trees_only_adds_trees reverse (@reverse_Permutation _) 2
           (mkForest 3 grid_center_fire) wf_center_fire).
Defined.
